(** * Reader-Writer Log: the monitor and its ring buffer

    A shallow embedding of [Reader-Writer Log/rwlog.c]: the global
    [monitor] pointer becomes an [option rwlog_monitor_t] that every
    operation receives and returns; [size_t] and [uint64_t] values are
    integers with their wrap-around modulo [2^64] written out; the mapped
    array [entries] is a list updated by index.  The mutex makes every
    stretch of code between a lock and the next wait or unlock atomic, so
    each such stretch is one function on the monitor record. *)

From Stdlib Require Import ZArith Lia List.
From stdpp Require Import base list.

Local Open Scope Z_scope.

Module RwLog.

(** ** Machine integers *)

Definition SIZE_MOD : Z := 2 ^ 64.
Definition PTRDIFF_MAX : Z := 2 ^ 63 - 1.
Definition INT_MAX : Z := 2 ^ 31 - 1.

(** [size_t] and [uint64_t] arithmetic wraps. *)
Definition wrap64 (z : Z) : Z := z mod SIZE_MOD.

(** Conversion of a [size_t] to the [ptrdiff_t] that [rwlog_snapshot]
    returns. *)
Definition to_ptrdiff (z : Z) : Z :=
  if z <=? PTRDIFF_MAX then z else z - SIZE_MOD.

(** ** Log entries *)

Record timespec : Type := mk_timespec { tv_sec : Z; tv_nsec : Z }.

(** Modelled from the spec: [rwlog_entry_t] is declared in [rw_log.h],
    which is not among the sources; the fields are those the code and the
    README use ([seq], [tid], [ts], [msg]).  The message buffer
    [char msg[RWLOG_MSG_MAX]] is a list of bytes. *)
Record rwlog_entry_t : Type := mk_entry {
  seq : Z;
  tid : Z;
  ts : timespec;
  msg : list Z
}.

Definition zero_entry : rwlog_entry_t :=
  {| seq := 0; tid := 0; ts := mk_timespec 0 0; msg := [] |}.

Definition set_seq (v : Z) (e : rwlog_entry_t) : rwlog_entry_t :=
  {| seq := v; tid := tid e; ts := ts e; msg := msg e |}.
Definition set_tid (v : Z) (e : rwlog_entry_t) : rwlog_entry_t :=
  {| seq := seq e; tid := v; ts := ts e; msg := msg e |}.
Definition set_ts (v : timespec) (e : rwlog_entry_t) : rwlog_entry_t :=
  {| seq := seq e; tid := tid e; ts := v; msg := msg e |}.

(** ** Monitor state *)

Record rwlog_monitor_t : Type := mk_monitor {
  readers_active : Z;
  readers_waiting : Z;
  writers_waiting : Z;
  writer_active : Z;
  entries : list rwlog_entry_t;
  capacity : Z;
  head : Z;
  tail : Z;
  count : Z;
  next_seq : Z
}.

(** The global [static rwlog_monitor_t *monitor]: [None] is [NULL]. *)
Definition global : Type := option rwlog_monitor_t.

Definition buffer_index (pos capacity : Z) : Z := pos mod capacity.

(** [monitor->entries[i]].  Where the array holds [capacity] entries the
    indices the code uses are in range (lemmas [head_in_range] and
    [wf_append] below) and the default is never read.  Outside the array
    the C access is undefined; the model reads a zeroed entry there and
    drops a write. *)
Definition entry_at (l : list rwlog_entry_t) (i : Z) : rwlog_entry_t :=
  default zero_entry (l !! Z.to_nat i).

(** ** rwlog_create *)

(** [esz] stands for [sizeof(rwlog_entry_t)] throughout.  It depends on
    [RWLOG_MSG_MAX] of the header [rw_log.h], which is not among the
    sources, so it is a parameter of the creation. *)

(** What [ftruncate] and [mmap] give.  The byte size is the [size_t]
    product [capacity * sizeof(rwlog_entry_t)], which wraps; the object
    holds the previous contents of the shared object (empty when it is
    new) cut or zero-extended to that many bytes, that is to as many whole
    entries as fit in them.  This is [capacity] entries only when the
    product does not wrap. *)
Definition shm_map (old : list rwlog_entry_t) (capacity esz : Z)
  : list rwlog_entry_t :=
  let slots := Z.to_nat (wrap64 (capacity * esz) / esz) in
  take slots (old ++ replicate slots zero_entry).

(** The block [Initialize state] of [rwlog_create], with the mapping in
    place. *)
Definition initial_monitor (cap esz : Z) (old : list rwlog_entry_t)
  : rwlog_monitor_t :=
  {| readers_active := 0; readers_waiting := 0;
     writers_waiting := 0; writer_active := 0;
     entries := shm_map old cap esz; capacity := cap;
     head := 0; tail := 0; count := 0;
     next_seq := 1 |}.

(** [res] is the outcome of the resource acquisitions ([malloc], the three
    [pthread_*_init], [shm_open], [ftruncate], [mmap]): [None] when one of
    them fails (every such path frees what was taken, resets [monitor] to
    [NULL] and returns -1), [Some old] with the shared object's previous
    contents otherwise.  Nothing checks the byte size for overflow; a
    wrapped size that [ftruncate] or [mmap] refuses (0, or one that is
    negative as an [off_t]) is among the failures. *)
Definition rwlog_create (g : global) (cap esz : Z)
    (res : option (list rwlog_entry_t)) : Z * global :=
  match g with
  | Some m => (-1, Some m)
  | None =>
      if cap =? 0 then (-1, None)
      else match res with
           | None => (-1, None)
           | Some old => (0, Some (initial_monitor cap esz old))
           end
  end.

Definition rwlog_destroy (g : global) : Z * global := (0, None).

(** ** rwlog_append *)

(** The critical section of [rwlog_append]; [self] is [pthread_self()] and
    [now] what [clock_gettime] stores. *)
Definition append_locked (m : rwlog_monitor_t) (e : rwlog_entry_t)
    (self : Z) (now : timespec) : rwlog_monitor_t :=
  let write_pos := Z.to_nat (head m) in
  let es1 := <[write_pos := e]> (entries m) in
  let es2 := alter (set_seq (next_seq m)) write_pos es1 in
  let next_seq' := wrap64 (next_seq m + 1) in
  let es3 := alter (set_tid self) write_pos es2 in
  let es4 := alter (set_ts now) write_pos es3 in
  let head' := buffer_index (wrap64 (head m + 1)) (capacity m) in
  if count m <? capacity m then
    {| readers_active := readers_active m;
       readers_waiting := readers_waiting m;
       writers_waiting := writers_waiting m;
       writer_active := writer_active m;
       entries := es4; capacity := capacity m;
       head := head'; tail := tail m;
       count := wrap64 (count m + 1);
       next_seq := next_seq' |}
  else
    {| readers_active := readers_active m;
       readers_waiting := readers_waiting m;
       writers_waiting := writers_waiting m;
       writer_active := writer_active m;
       entries := es4; capacity := capacity m;
       head := head';
       tail := buffer_index (wrap64 (tail m + 1)) (capacity m);
       count := count m;
       next_seq := next_seq' |}.

(** [e = None] is a [NULL] argument. *)
Definition rwlog_append (g : global) (e : option rwlog_entry_t)
    (self : Z) (now : timespec) : Z * global :=
  match g, e with
  | Some m, Some e => (0, Some (append_locked m e self now))
  | _, _ => (-1, g)
  end.

(** ** rwlog_snapshot *)

(** The copy loop [for (i = 0; i < entries_to_copy; i++)]: [n] iterations
    remain and [i] is the loop variable. *)
Fixpoint snapshot_copy (m : rwlog_monitor_t) (start_pos : Z) (n : nat)
    (i : Z) (buf : list rwlog_entry_t) : list rwlog_entry_t :=
  match n with
  | O => buf
  | S n' =>
      let src_idx := buffer_index (wrap64 (start_pos + i)) (capacity m) in
      snapshot_copy m start_pos n' (i + 1)
        (<[Z.to_nat i := entry_at (entries m) src_idx]> buf)
  end.

(** [buf = None] is a [NULL] buffer.  The result is the returned
    [ptrdiff_t], the caller's buffer afterwards and the global. *)
Definition rwlog_snapshot (g : global) (buf : option (list rwlog_entry_t))
    (max_entries : Z) : Z * option (list rwlog_entry_t) * global :=
  match g, buf with
  | Some m, Some b =>
      if max_entries =? 0 then (0, buf, g)
      else
        let entries_to_copy :=
          if count m <? max_entries then count m else max_entries in
        let b' :=
          if 0 <? entries_to_copy
          then snapshot_copy m (tail m) (Z.to_nat entries_to_copy) 0 b
          else b in
        (to_ptrdiff entries_to_copy, Some b', g)
  | _, _ => (-1, buf, g)
  end.

(** ** The bracket operations *)

Definition with_sync (m : rwlog_monitor_t) (ra rw ww wa : Z)
  : rwlog_monitor_t :=
  {| readers_active := ra; readers_waiting := rw;
     writers_waiting := ww; writer_active := wa;
     entries := entries m; capacity := capacity m;
     head := head m; tail := tail m; count := count m;
     next_seq := next_seq m |}.

(** How a stretch of a blocking operation ends under the lock: the caller
    got through ([Entered]) or sits in [pthread_cond_wait] with the mutex
    released ([Parked]). *)
Inductive outcome : Type :=
  | Entered (m : rwlog_monitor_t)
  | Parked (m : rwlog_monitor_t).

(** The test of [while (writer_active || writers_waiting > 0)] and what
    follows it up to the wait or the unlock. *)
Definition begin_read_loop (m : rwlog_monitor_t) : outcome :=
  if negb (writer_active m =? 0) || (0 <? writers_waiting m) then
    Parked (with_sync m (readers_active m) (readers_waiting m + 1)
              (writers_waiting m) (writer_active m))
  else
    Entered (with_sync m (readers_active m + 1) (readers_waiting m)
               (writers_waiting m) (writer_active m)).

(** Return from [pthread_cond_wait] in [rwlog_begin_read]:
    [readers_waiting--], then the loop test again. *)
Definition begin_read_wake (m : rwlog_monitor_t) : outcome :=
  begin_read_loop
    (with_sync m (readers_active m) (readers_waiting m - 1)
       (writers_waiting m) (writer_active m)).

(** The test of [while (readers_active > 0 || writer_active)] and what
    follows it. *)
Definition begin_write_loop (m : rwlog_monitor_t) : outcome :=
  if (0 <? readers_active m) || negb (writer_active m =? 0) then
    Parked m
  else
    Entered (with_sync m (readers_active m) (readers_waiting m)
               (writers_waiting m - 1) 1).

(** Entry of [rwlog_begin_write]: [writers_waiting++], then the loop. *)
Definition begin_write_entry (m : rwlog_monitor_t) : outcome :=
  begin_write_loop
    (with_sync m (readers_active m) (readers_waiting m)
       (writers_waiting m + 1) (writer_active m)).

(** Return from [pthread_cond_wait] in [rwlog_begin_write]. *)
Definition begin_write_wake (m : rwlog_monitor_t) : outcome :=
  begin_write_loop m.

Definition end_read_locked (m : rwlog_monitor_t) : rwlog_monitor_t :=
  with_sync m (readers_active m - 1) (readers_waiting m)
    (writers_waiting m) (writer_active m).

Definition end_write_locked (m : rwlog_monitor_t) : rwlog_monitor_t :=
  with_sync m (readers_active m) (readers_waiting m)
    (writers_waiting m) 0.

(** What the caller of a blocking operation sees: the call returned, or
    the thread is suspended inside it. *)
Inductive call_result : Type :=
  | Returned (r : Z) (g : global)
  | Suspended (m : rwlog_monitor_t).

Definition finish (o : outcome) : call_result :=
  match o with
  | Entered m => Returned 0 (Some m)
  | Parked m => Suspended m
  end.

Definition rwlog_begin_read (g : global) : call_result :=
  match g with
  | None => Returned (-1) None
  | Some m => finish (begin_read_loop m)
  end.

Definition rwlog_begin_write (g : global) : call_result :=
  match g with
  | None => Returned (-1) None
  | Some m => finish (begin_write_entry m)
  end.

Definition rwlog_end_read (g : global) : Z * global :=
  match g with
  | None => (-1, None)
  | Some m => (0, Some (end_read_locked m))
  end.

Definition rwlog_end_write (g : global) : Z * global :=
  match g with
  | None => (-1, None)
  | Some m => (0, Some (end_write_locked m))
  end.

(** [rwlog_wake_all] only broadcasts: no field changes. *)
Definition rwlog_wake_all (g : global) : global := g.

(** ** The ring buffer seen from outside *)

(** One call of [rwlog_append]: the caller's entry, the calling thread and
    the clock reading. *)
Definition append_input : Type := rwlog_entry_t * Z * timespec.

Definition append_step (m : rwlog_monitor_t) (a : append_input)
  : rwlog_monitor_t :=
  append_locked m a.1.1 a.1.2 a.2.

(** The monitor after a sequence of appends. *)
Definition append_all (m : rwlog_monitor_t) (ins : list append_input)
  : rwlog_monitor_t :=
  fold_left append_step ins m.

(** The stored copies the appends leave, each read back from the slot it
    was written to right after its append, in call order. *)
Fixpoint append_trace (m : rwlog_monitor_t) (ins : list append_input)
  : list rwlog_entry_t :=
  match ins with
  | [] => []
  | a :: ins' =>
      entry_at (entries (append_step m a)) (head m)
        :: append_trace (append_step m a) ins'
  end.

(** The copy an append stores: the caller's message under the fields the
    monitor assigns. *)
Definition stamped (m : rwlog_monitor_t) (a : append_input)
  : rwlog_entry_t :=
  {| seq := next_seq m; tid := a.1.2; ts := a.2; msg := msg a.1.1 |}.

(** The live entries, oldest first: [count] slots from [tail] on, around
    the end of the array. *)
Definition live (m : rwlog_monitor_t) : list rwlog_entry_t :=
  (λ i, entry_at (entries m) (buffer_index (tail m + i) (capacity m)))
    <$> seqZ 0 (count m).

(** A store made by a successful [rwlog_create] on a [NULL] monitor. *)
Definition created (cap esz : Z) (old : list rwlog_entry_t)
    (m : rwlog_monitor_t) : Prop :=
  rwlog_create None cap esz (Some old) = (0, Some m).

(** The byte size of the array does not wrap, so that the mapping holds
    [cap] entries; an entry holds a [uint64_t], so it has at least 8
    bytes. *)
Definition fits (cap esz : Z) : Prop :=
  0 < cap /\ 8 <= esz /\ cap * esz < SIZE_MOD.

(** The slots of the live entries, oldest first. *)
Definition live_slots (m : rwlog_monitor_t) : list Z :=
  (λ i, buffer_index (tail m + i) (capacity m)) <$> seqZ 0 (count m).

(** The invariant of the indices and counters of the ring. *)
Record ring_num (m : rwlog_monitor_t) : Prop := mk_ring_num {
  rn_cap : 0 < capacity m < SIZE_MOD;
  rn_tail : 0 <= tail m < capacity m;
  rn_count : 0 <= count m <= capacity m;
  rn_head : head m = (tail m + count m) mod capacity m
}.

(** The representation invariant of the ring: the indices and counters,
    and an array of [capacity] entries. *)
Record ring_wf (m : rwlog_monitor_t) : Prop := mk_ring_wf {
  wf_cap : 0 < capacity m < SIZE_MOD;
  wf_len : length (entries m) = Z.to_nat (capacity m);
  wf_tail : 0 <= tail m < capacity m;
  wf_count : 0 <= count m <= capacity m;
  wf_head : head m = (tail m + count m) mod capacity m
}.

(** Strictly increasing lists of integers. *)
Fixpoint increasing (l : list Z) : Prop :=
  match l with
  | [] => True
  | x :: l' =>
      match l' with
      | [] => True
      | y :: _ => x < y /\ increasing l'
      end
  end.

(** ** Threads around the monitor *)

(** Where a thread stands with respect to the monitor: outside, suspended
    in [rwlog_begin_read], between [rwlog_begin_read] and
    [rwlog_end_read], suspended in [rwlog_begin_write], or between
    [rwlog_begin_write] and [rwlog_end_write]. *)
Inductive tstate : Type :=
  | Idle | WaitRead | Reading | WaitWrite | Writing.

#[global] Instance tstate_eq_dec : EqDecision tstate.
Proof. solve_decision. Defined.

(** The atomic steps: a call of one of the four operations, or the return
    of a suspended thread from [pthread_cond_wait] (after a signal, a
    broadcast, [rwlog_wake_all] or spuriously). *)
Inductive op : Type :=
  | BeginRead | WakeRead | EndRead | BeginWrite | WakeWrite | EndWrite.

Record system : Type := mk_system {
  mon : rwlog_monitor_t;
  threads : list tstate
}.

Definition settle (s : system) (t : nat) (o : outcome)
    (inside waiting : tstate) : system :=
  match o with
  | Entered m => {| mon := m; threads := <[t := inside]> (threads s) |}
  | Parked m => {| mon := m; threads := <[t := waiting]> (threads s) |}
  end.

(** Thread [t] takes step [o]; [None] when the step is not one the thread
    can take where it stands: a task goes from idle to waiting to active
    and back to idle, pairing each [begin] with one [end], as
    [reader_thread] and [writer_thread] of the driver do. *)
Definition exec (s : system) (t : nat) (o : op) : option system :=
  match threads s !! t, o with
  | Some Idle, BeginRead =>
      Some (settle s t (begin_read_loop (mon s)) Reading WaitRead)
  | Some WaitRead, WakeRead =>
      Some (settle s t (begin_read_wake (mon s)) Reading WaitRead)
  | Some Reading, EndRead =>
      Some {| mon := end_read_locked (mon s);
              threads := <[t := Idle]> (threads s) |}
  | Some Idle, BeginWrite =>
      Some (settle s t (begin_write_entry (mon s)) Writing WaitWrite)
  | Some WaitWrite, WakeWrite =>
      Some (settle s t (begin_write_wake (mon s)) Writing WaitWrite)
  | Some Writing, EndWrite =>
      Some {| mon := end_write_locked (mon s);
              threads := <[t := Idle]> (threads s) |}
  | _, _ => None
  end.

(** An interleaving: which thread takes which step, in order. *)
Fixpoint run (s : system) (tr : list (nat * op)) : option system :=
  match tr with
  | [] => Some s
  | (t, o) :: tr' =>
      match exec s t o with
      | Some s' => run s' tr'
      | None => None
      end
  end.

(** [n] threads around a freshly created monitor. *)
Definition init_system (m : rwlog_monitor_t) (n : nat) : system :=
  {| mon := m; threads := replicate n Idle |}.

(** Number of threads in a given state. *)
Fixpoint population (x : tstate) (l : list tstate) : Z :=
  match l with
  | [] => 0
  | y :: l' => (if bool_decide (y = x) then 1 else 0) + population x l'
  end.

(** The counters count the threads. *)
Record sync_inv (s : system) : Prop := mk_sync_inv {
  inv_ra : readers_active (mon s) = population Reading (threads s);
  inv_rw : readers_waiting (mon s) = population WaitRead (threads s);
  inv_ww : writers_waiting (mon s) = population WaitWrite (threads s);
  inv_wa : writer_active (mon s) = population Writing (threads s);
  inv_one : writer_active (mon s) = 0 \/ writer_active (mon s) = 1;
  inv_excl : writer_active (mon s) = 1 -> readers_active (mon s) = 0
}.

(** ** The driver's threads and the log *)

(** The ring-buffer part of the monitor. *)
Definition log_of (m : rwlog_monitor_t)
  : list rwlog_entry_t * Z * Z * Z * Z * Z :=
  (entries m, capacity m, head m, tail m, count m, next_seq m).

(** [pthread_self()] of thread [t]. *)
Definition thread_id (t : nat) : Z := Z.of_nat t.

(** A step of a driver thread: a synchronisation step, or a call of
    [rwlog_append] with the entry the thread built and the clock reading
    of the call. *)
Inductive xop : Type :=
  | Sync (o : op)
  | Append (e : rwlog_entry_t) (now : timespec).

(** [writer_thread] calls [rwlog_append] only between its
    [rwlog_begin_write] and its [rwlog_end_write]. *)
Definition xexec (s : system) (t : nat) (x : xop) : option system :=
  match x with
  | Sync o => exec s t o
  | Append e now =>
      match threads s !! t with
      | Some Writing =>
          Some {| mon := append_locked (mon s) e (thread_id t) now;
                  threads := threads s |}
      | _ => None
      end
  end.

Fixpoint xrun (s : system) (tr : list (nat * xop)) : option system :=
  match tr with
  | [] => Some s
  | (t, x) :: tr' =>
      match xexec s t x with
      | Some s' => xrun s' tr'
      | None => None
      end
  end.

(** The appends of a trace, in order, as [rwlog_append] receives them. *)
Fixpoint appends_in (tr : list (nat * xop)) : list append_input :=
  match tr with
  | [] => []
  | (t, Append e now) :: tr' => (e, thread_id t, now) :: appends_in tr'
  | (_, Sync _) :: tr' => appends_in tr'
  end.

(** The threads that append in a trace. *)
Fixpoint appenders (tr : list (nat * xop)) : list nat :=
  match tr with
  | [] => []
  | (t, Append _ _) :: tr' => t :: appenders tr'
  | (_, Sync _) :: tr' => appenders tr'
  end.

(** Thread [t] gets through [rwlog_begin_write] in this step. *)
Definition writer_enters (s : system) (t : nat) (x : xop) : bool :=
  match xexec s t x with
  | Some s' =>
      bool_decide (threads s' !! t = Some Writing)
      && negb (bool_decide (threads s !! t = Some Writing))
  | None => false
  end.

(** No step of the trace lets a writer in. *)
Fixpoint no_writer_enters (s : system) (tr : list (nat * xop)) : bool :=
  match tr with
  | [] => true
  | (t, x) :: tr' =>
      negb (writer_enters s t x)
      && match xexec s t x with
         | Some s' => no_writer_enters s' tr'
         | None => true
         end
  end.

(** ** Condition variables *)

(** The threads with their wake-up flags: [woken !! t] tells whether
    thread [t], suspended in [pthread_cond_wait], has been unblocked and
    will return from the wait when it next runs. *)
Record sigsys : Type := mk_sigsys {
  base : system;
  woken : list bool
}.

(** Some thread in state [st] is still blocked. *)
Fixpoint any_blocked (st : tstate) (ths : list tstate) (w : list bool)
  : bool :=
  match ths, w with
  | x :: ths', b :: w' =>
      (bool_decide (x = st) && negb b) || any_blocked st ths' w'
  | _, _ => false
  end.

(** [pthread_cond_signal] on the condition the threads in state [st] wait
    on: it unblocks one blocked thread, [pick], when there is one, and
    does nothing when there is none.  [None]: [pick] is not a thread the
    signal can choose. *)
Definition cond_signal (st : tstate) (pick : nat) (ths : list tstate)
    (w : list bool) : option (list bool) :=
  if bool_decide (ths !! pick = Some st)
     && bool_decide (w !! pick = Some false)
  then Some (<[pick := true]> w)
  else if any_blocked st ths w then None else Some w.

(** [pthread_cond_broadcast]: every thread waiting in state [st] is
    unblocked. *)
Definition cond_broadcast (st : tstate) (ths : list tstate)
    (w : list bool) : list bool :=
  zip_with (λ x b, bool_decide (x = st) || b) ths w.

(** The steps with their signalling: a call or wake-up (with the thread a
    signal of this step unblocks), a call of [rwlog_wake_all], and a
    spurious wake-up. *)
Inductive sop : Type :=
  | Call (o : op) (pick : nat)
  | WakeAll
  | Spurious.

(** What [rwlog_end_read] and [rwlog_end_write] do to the condition
    variables after they updated the counters to [m]. *)
Definition signals_after (o : op) (pick : nat) (m : rwlog_monitor_t)
    (ths : list tstate) (w : list bool) : option (list bool) :=
  match o with
  | EndRead =>
      if (readers_active m =? 0) && (0 <? writers_waiting m)
      then cond_signal WaitWrite pick ths w
      else Some w
  | EndWrite =>
      if 0 <? writers_waiting m
      then cond_signal WaitWrite pick ths w
      else Some (cond_broadcast WaitRead ths w)
  | _ => Some w
  end.

Definition is_wake (o : op) : bool :=
  match o with
  | WakeRead | WakeWrite => true
  | _ => false
  end.

Definition is_waiting (st : tstate) : bool :=
  match st with
  | WaitRead | WaitWrite => true
  | _ => false
  end.

(** A suspended thread resumes only once it is unblocked; a thread that
    runs has its flag cleared, so that it is blocked when it waits
    again. *)
Definition sexec (s : sigsys) (t : nat) (x : sop) : option sigsys :=
  match x with
  | Call o pick =>
      if is_wake o && negb (bool_decide (woken s !! t = Some true))
      then None
      else
        match exec (base s) t o with
        | None => None
        | Some b' =>
            match signals_after o pick (mon b') (threads b')
                    (<[t := false]> (woken s)) with
            | None => None
            | Some w' => Some {| base := b'; woken := w' |}
            end
        end
  | WakeAll =>
      Some {| base := base s;
              woken := cond_broadcast WaitWrite (threads (base s))
                         (cond_broadcast WaitRead (threads (base s))
                            (woken s)) |}
  | Spurious =>
      match threads (base s) !! t with
      | Some st =>
          if is_waiting st
          then Some {| base := base s; woken := <[t := true]> (woken s) |}
          else None
      | None => None
      end
  end.

Fixpoint srun (s : sigsys) (tr : list (nat * sop)) : option sigsys :=
  match tr with
  | [] => Some s
  | (t, x) :: tr' =>
      match sexec s t x with
      | Some s' => srun s' tr'
      | None => None
      end
  end.

Definition init_sigsys (m : rwlog_monitor_t) (n : nat) : sigsys :=
  {| base := init_system m n; woken := replicate n false |}.

(** No wake-up is lost: while nobody is inside and a writer waits, some
    waiting writer is unblocked; while no writer is inside or waits,
    every waiting reader is unblocked. *)
Record wake_inv (s : sigsys) : Prop := mk_wake_inv {
  wk_sync : sync_inv (base s);
  wk_len : length (woken s) = length (threads (base s));
  wk_writer :
    readers_active (mon (base s)) = 0 ->
    writer_active (mon (base s)) = 0 ->
    (exists t, threads (base s) !! t = Some WaitWrite) ->
    exists t, threads (base s) !! t = Some WaitWrite
              /\ woken s !! t = Some true;
  wk_readers :
    writer_active (mon (base s)) = 0 ->
    writers_waiting (mon (base s)) = 0 ->
    forall t, threads (base s) !! t = Some WaitRead ->
              woken s !! t = Some true
}.

(** ** The reader's check *)

(** The loop [for (i = 1; i < count; i++)] of [reader_thread]: the
    indices at which it reports a violation; [n] iterations remain. *)
Fixpoint check_loop (buffer : list rwlog_entry_t) (n : nat) (i : Z)
  : list Z :=
  match n with
  | O => []
  | S n' =>
      if seq (entry_at buffer i) <=? seq (entry_at buffer (i - 1))
      then i :: check_loop buffer n' (i + 1)
      else check_loop buffer n' (i + 1)
  end.

(** What [reader_thread] does with a snapshot of [count] entries: the
    violations it reports and its [last_seq] afterwards. *)
Definition reader_check (buffer : list rwlog_entry_t) (count last_seq : Z)
  : list Z * Z :=
  if 0 <? count then
    (check_loop buffer (Z.to_nat (count - 1)) 1,
     seq (entry_at buffer (count - 1)))
  else ([], last_seq).

(** ** The address splitter at the end of [rwlog.c] *)

Definition PAGE_SIZE : Z := 4096.
Definition OFFSET_MASK : Z := 4095.

(** [address] is what [strtoul] returns; the result is [virtual_addr],
    [page_number] and [offset] as [main] prints them. *)
Definition split_address (address : Z) : Z * Z * Z :=
  let virtual_addr := address mod 2 ^ 32 in
  let page_number := Z.shiftr virtual_addr 12 in
  let offset := Z.land virtual_addr OFFSET_MASK in
  (virtual_addr, page_number, offset).

(** ** A schedule without fairness *)

(** Thread 0 writes, thread 1 asks to read and thread 2 to write. *)
Definition crowd : list (nat * sop) :=
  [(0%nat, Call BeginWrite 0%nat); (1%nat, Call BeginRead 0%nat);
   (2%nat, Call BeginWrite 0%nat)].

(** Thread 0 leaves and signals thread 2, comes back before thread 2 has
    run, and thread 2 finds the writer inside and waits again. *)
Definition barge : list (nat * sop) :=
  [(0%nat, Call EndWrite 2%nat); (0%nat, Call BeginWrite 0%nat);
   (2%nat, Call WakeWrite 0%nat)].

Fixpoint rounds (k : nat) : list (nat * sop) :=
  match k with
  | O => []
  | S k' => barge ++ rounds k'
  end.

(** The calls of [rwlog_begin_write] that return in a trace started in
    [s]. *)
Fixpoint write_entries (s : sigsys) (tr : list (nat * sop)) : nat :=
  match tr with
  | [] => 0%nat
  | (t, x) :: tr' =>
      match sexec s t x with
      | Some s' =>
          ((if bool_decide (threads (base s') !! t = Some Writing)
               && negb (bool_decide (threads (base s) !! t = Some Writing))
            then 1 else 0)
           + write_entries s' tr')%nat
      | None => 0%nat
      end
  end.

(** ** Sample inputs *)

Definition t0 : timespec := mk_timespec 0 0.

(** An append of the message [[c]] by thread [self]. *)
Definition say (c self : Z) : append_input :=
  ({| seq := 0; tid := 0; ts := t0; msg := [c] |}, self, t0).

(** [n] appends of the same message by the same thread. *)
Definition flood (n : Z) : list append_input :=
  replicate (Z.to_nat n) (say 0 1).

(** With entries of 96 bytes, a capacity whose byte size wraps to 32. *)
Definition wrapping_capacity : Z := 192153584101141163.

(** A reader enters, a writer queues up behind it, a second reader is held
    back, the first reader leaves and the writer gets in. *)
Definition sample_trace : list (nat * op) :=
  [(0%nat, BeginRead); (1%nat, BeginWrite); (2%nat, BeginRead);
   (0%nat, EndRead); (1%nat, WakeWrite)].

(** * Properties *)

(** ** Arithmetic of the indices *)

Lemma wrap64_small z : 0 <= z < SIZE_MOD -> wrap64 z = z.
Proof. intros H. unfold wrap64. now apply Z.mod_small. Qed.

Lemma mod_once c x :
  0 < c -> 0 <= x < 2 * c -> x mod c = if x <? c then x else x - c.
Proof.
  intros Hc Hx. destruct (Z.ltb_spec x c) as [Hlt | Hge].
  - apply Z.mod_small. lia.
  - symmetry. apply (Z.mod_unique x c 1). { left. lia. } lia.
Qed.

(** ** One append *)

Lemma append_entries m a :
  (Z.to_nat (head m) < length (entries m))%nat ->
  entries (append_step m a)
  = <[Z.to_nat (head m) := stamped m a]> (entries m).
Proof.
  intros Hlt. destruct a as [[e self] now].
  unfold append_step, append_locked, stamped. cbn [fst snd].
  assert (Hes :
    alter (set_ts now) (Z.to_nat (head m))
      (alter (set_tid self) (Z.to_nat (head m))
         (alter (set_seq (next_seq m)) (Z.to_nat (head m))
            (<[Z.to_nat (head m) := e]> (entries m))))
    = <[Z.to_nat (head m) :=
          {| seq := next_seq m; tid := self; ts := now; msg := msg e |}]>
        (entries m)).
  { apply list_eq. intros k.
    destruct (decide (k = Z.to_nat (head m))) as [-> | Hne].
    - rewrite !list_lookup_alter_eq, !list_lookup_insert_eq by done.
      reflexivity.
    - rewrite !list_lookup_alter_ne, !list_lookup_insert_ne by done.
      reflexivity. }
  destruct (count m <? capacity m); cbn [entries]; exact Hes.
Qed.

Lemma append_fields m a :
  ring_wf m ->
  let m' := append_step m a in
  capacity m' = capacity m
  /\ head m' = (head m + 1) mod capacity m
  /\ next_seq m' = wrap64 (next_seq m + 1)
  /\ (count m < capacity m -> count m' = count m + 1 /\ tail m' = tail m)
  /\ (count m = capacity m ->
      count m' = capacity m /\ tail m' = (tail m + 1) mod capacity m)
  /\ readers_active m' = readers_active m
  /\ readers_waiting m' = readers_waiting m
  /\ writers_waiting m' = writers_waiting m
  /\ writer_active m' = writer_active m.
Proof.
  intros [Hcap Hlen Htail Hcount Hhead]. destruct a as [[e self] now].
  assert (Hh : 0 <= head m < capacity m).
  { rewrite Hhead. apply Z.mod_pos_bound. lia. }
  unfold append_step, append_locked, buffer_index. cbn [fst snd].
  destruct (Z.ltb_spec (count m) (capacity m)) as [Hlt | Hge];
    cbn [capacity head tail count next_seq readers_active readers_waiting
         writers_waiting writer_active];
    rewrite ?(wrap64_small (head m + 1)), ?(wrap64_small (count m + 1)),
      ?(wrap64_small (tail m + 1)) by lia;
    repeat split; try reflexivity; intros; lia.
Qed.

Lemma head_in_range m :
  ring_wf m -> (Z.to_nat (head m) < length (entries m))%nat.
Proof.
  intros [Hcap Hlen Htail Hcount Hhead].
  assert (0 <= head m < capacity m).
  { rewrite Hhead. apply Z.mod_pos_bound. lia. }
  lia.
Qed.

(** Unfolds every [x mod c] whose argument lies in [[0, 2c)] and splits on
    the comparison this leaves. *)
Ltac unfold_mods :=
  repeat first
    [ match goal with
      | |- context [?x mod ?c] => rewrite (mod_once c x) by lia
      | H : context [?x mod ?c] |- _ => rewrite (mod_once c x) in H by lia
      end
    | match goal with
      | |- context [?a <? ?b] => destruct (Z.ltb_spec a b)
      | H : context [?a <? ?b] |- _ => destruct (Z.ltb_spec a b)
      end ].

Lemma wf_append m a : ring_wf m -> ring_wf (append_step m a).
Proof.
  intros Hwf.
  pose proof (append_fields m a Hwf) as (Hc & Hh & _ & Hlt & Hfull & _).
  pose proof (append_entries m a (head_in_range m Hwf)) as He.
  destruct Hwf as [Hcap Hlen Htail Hcount Hhead].
  destruct (Z.lt_ge_cases (count m) (capacity m)) as [Hl | Hg].
  - destruct (Hlt Hl) as [Hc' Ht'].
    constructor; rewrite ?Hc, ?He, ?length_insert, ?Hc', ?Ht', ?Hh;
      try lia.
    unfold_mods; lia.
  - assert (Heq : count m = capacity m) by lia.
    destruct (Hfull Heq) as [Hc' Ht'].
    constructor; rewrite ?Hc, ?He, ?length_insert, ?Hc', ?Ht', ?Hh;
      try lia; unfold_mods; lia.
Qed.

Lemma fits_range cap esz :
  fits cap esz -> 0 < cap <= PTRDIFF_MAX /\ 0 < cap < SIZE_MOD.
Proof.
  unfold fits, PTRDIFF_MAX, SIZE_MOD. intros (Hc & He & Hm). nia.
Qed.

Lemma shm_map_length old cap esz :
  fits cap esz -> length (shm_map old cap esz) = Z.to_nat cap.
Proof.
  intros Hf. pose proof (fits_range cap esz Hf) as [_ Hr].
  destruct Hf as (Hc & He & Hm). unfold shm_map.
  rewrite wrap64_small by nia. rewrite Z.div_mul by lia.
  rewrite length_take, length_app, length_replicate. lia.
Qed.

Lemma wf_created cap esz old m :
  fits cap esz -> created cap esz old m ->
  ring_wf m /\ capacity m = cap /\ count m = 0 /\ head m = 0
  /\ tail m = 0 /\ next_seq m = 1
  /\ readers_active m = 0 /\ readers_waiting m = 0
  /\ writers_waiting m = 0 /\ writer_active m = 0.
Proof.
  intros Hf Hcr. pose proof (fits_range cap esz Hf) as [_ Hcap].
  unfold created, rwlog_create in Hcr.
  destruct (Z.eqb_spec cap 0) as [-> | Hne]; [lia |].
  injection Hcr as <-.
  unfold initial_monitor.
  repeat split; cbn [capacity entries tail count head]; try lia.
  now apply shm_map_length.
Qed.

Lemma wf_append_all ins : forall m, ring_wf m -> ring_wf (append_all m ins).
Proof.
  induction ins as [| a ins IH]; intros m Hwf; [exact Hwf |].
  apply IH. now apply wf_append.
Qed.

(** ** The live window *)

Lemma entry_at_insert l h i x :
  0 <= h -> 0 <= i -> (Z.to_nat h < length l)%nat ->
  entry_at (<[Z.to_nat h := x]> l) i
  = if i =? h then x else entry_at l i.
Proof.
  intros Hh Hi Hlen. unfold entry_at.
  destruct (Z.eqb_spec i h) as [-> | Hne].
  - now rewrite list_lookup_insert_eq.
  - rewrite list_lookup_insert_ne by lia. reflexivity.
Qed.

Lemma live_lookup m k :
  live m !! k
  = if Z.of_nat k <? count m
    then Some (entry_at (entries m)
                 (buffer_index (tail m + Z.of_nat k) (capacity m)))
    else None.
Proof.
  unfold live. rewrite list_lookup_fmap.
  destruct (Z.ltb_spec (Z.of_nat k) (count m)) as [Hlt | Hge].
  - now rewrite lookup_seqZ_lt.
  - now rewrite lookup_seqZ_ge.
Qed.

Lemma live_length m : length (live m) = Z.to_nat (count m).
Proof. unfold live. now rewrite length_fmap, length_seqZ. Qed.

(** An append puts the stored copy behind the live entries, and drops the
    oldest of them when the buffer was full. *)
Lemma live_append m a :
  ring_wf m ->
  live (append_step m a)
  = (if count m <? capacity m then live m else drop 1 (live m))
      ++ [stamped m a].
Proof.
  intros Hwf.
  pose proof (append_fields m a Hwf) as (Hc & Hh & _ & Hlt & Hfull & _).
  pose proof (head_in_range m Hwf) as Hin.
  pose proof (append_entries m a Hin) as He.
  destruct Hwf as [Hcap Hlen Htail Hcount Hhead].
  assert (Hhr : 0 <= head m < capacity m).
  { rewrite Hhead. apply Z.mod_pos_bound. lia. }
  apply list_eq. intros k. rewrite live_lookup, He, Hc.
  unfold buffer_index.
  destruct (Z.ltb_spec (count m) (capacity m)) as [Hl | Hg].
  - destruct (Hlt Hl) as [-> ->].
    destruct (Z.ltb_spec (Z.of_nat k) (count m + 1)) as [Hk | Hk].
    + rewrite entry_at_insert by (try apply Z.mod_pos_bound; lia).
      destruct (Z.lt_ge_cases (Z.of_nat k) (count m)) as [Hk1 | Hk1].
      * rewrite lookup_app_l by (rewrite live_length; lia).
        rewrite live_lookup. unfold buffer_index.
        destruct (Z.ltb_spec (Z.of_nat k) (count m)); [| lia].
        destruct (Z.eqb_spec ((tail m + Z.of_nat k) mod capacity m) (head m))
          as [Heq | Hne]; [| reflexivity].
        exfalso. revert Heq. unfold_mods; lia.
      * assert (Hkc : Z.of_nat k = count m) by lia.
        rewrite lookup_app_r by (rewrite live_length; lia).
        rewrite live_length.
        replace (k - Z.to_nat (count m))%nat with 0%nat by lia.
        rewrite Hkc, <- Hhead, Z.eqb_refl. reflexivity.
    + symmetry. apply lookup_ge_None_2.
      rewrite length_app, live_length. cbn. lia.
  - assert (Heq : count m = capacity m) by lia.
    destruct (Hfull Heq) as [-> ->].
    assert (Hht : head m = tail m).
    { rewrite Hhead, Heq. unfold_mods; lia. }
    destruct (Z.ltb_spec (Z.of_nat k) (capacity m)) as [Hk | Hk].
    + rewrite entry_at_insert by (try apply Z.mod_pos_bound; lia).
      destruct (Z.lt_ge_cases (Z.of_nat k) (capacity m - 1)) as [Hk1 | Hk1].
      * rewrite lookup_app_l
          by (rewrite length_drop, live_length; lia).
        rewrite lookup_drop, live_lookup. unfold buffer_index.
        destruct (Z.ltb_spec (Z.of_nat (1 + k)) (count m)); [| lia].
        destruct (Z.eqb_spec
                    (((tail m + 1) mod capacity m + Z.of_nat k)
                       mod capacity m) (head m)) as [Hx | Hne].
        { exfalso. revert Hx. rewrite Hht. unfold_mods; lia. }
        f_equal. f_equal. unfold_mods; lia.
      * rewrite lookup_app_r
          by (rewrite length_drop, live_length; lia).
        rewrite length_drop, live_length.
        replace (k - (Z.to_nat (count m) - 1))%nat with 0%nat by lia.
        destruct (Z.eqb_spec
                    (((tail m + 1) mod capacity m + Z.of_nat k)
                       mod capacity m) (head m)) as [Hx | Hne];
          [reflexivity |].
        exfalso. apply Hne. rewrite Hht. unfold_mods; lia.
    + symmetry. apply lookup_ge_None_2.
      rewrite length_app, length_drop, live_length. cbn. lia.
Qed.

(** ** Sequence numbers *)

Lemma wrap64_succ N : wrap64 (wrap64 N + 1) = wrap64 (N + 1).
Proof. unfold wrap64. apply Zplus_mod_idemp_l. Qed.

(** After [n] appends to a store that held [c] entries, [min (c + n)
    capacity] entries are live. *)
Lemma count_append_all ins : forall m,
  ring_wf m ->
  count (append_all m ins)
  = Z.min (count m + Z.of_nat (length ins)) (capacity m)
  /\ capacity (append_all m ins) = capacity m.
Proof.
  induction ins as [| a ins IH]; intros m Hwf.
  - destruct Hwf. cbn [append_all fold_left length]. lia.
  - pose proof (append_fields m a Hwf) as (Hc & _ & _ & Hlt & Hfull & _).
    destruct (IH (append_step m a) (wf_append m a Hwf)) as [IHc IHcap].
    change (append_all m (a :: ins)) with (append_all (append_step m a) ins).
    rewrite IHc, IHcap, Hc. split; [| reflexivity].
    destruct Hwf as [Hcap Hlen Htail Hcount Hhead].
    cbn [length]. rewrite Nat2Z.inj_succ.
    destruct (Z.lt_ge_cases (count m) (capacity m)) as [Hl | Hg].
    + destruct (Hlt Hl) as [-> _]. lia.
    + destruct (Hfull ltac:(lia)) as [-> _]. lia.
Qed.

(** The live entries carry consecutive sequence numbers (modulo [2^64])
    that end just below the counter. *)
Lemma live_seqs_append m a N :
  ring_wf m ->
  next_seq m = wrap64 N ->
  seq <$> live m
    = (λ i, wrap64 (N - count m + i)) <$> seqZ 0 (count m) ->
  let m' := append_step m a in
  next_seq m' = wrap64 (N + 1)
  /\ seq <$> live m'
     = (λ i, wrap64 (N + 1 - count m' + i)) <$> seqZ 0 (count m').
Proof.
  intros Hwf Hn Hl m'. subst m'.
  pose proof (append_fields m a Hwf) as (Hc & Hh & Hns & Hlt & Hfull & _).
  split; [now rewrite Hns, Hn, wrap64_succ |].
  rewrite (live_append m a Hwf), fmap_app.
  destruct Hwf as [Hcap Hlen Htail Hcount Hhead].
  apply list_eq. intros k. rewrite (list_lookup_fmap _ (seqZ _ _)).
  destruct (Z.ltb_spec (count m) (capacity m)) as [Hlt' | Hge].
  - destruct (Hlt Hlt') as [-> _]. rewrite Hl.
    destruct (Z.lt_ge_cases (Z.of_nat k) (count m)) as [Hk | Hk].
    + rewrite lookup_app_l by (rewrite length_fmap, length_seqZ; lia).
      rewrite list_lookup_fmap, !lookup_seqZ_lt by lia.
      cbn. do 2 f_equal. lia.
    + rewrite lookup_app_r by (rewrite length_fmap, length_seqZ; lia).
      rewrite length_fmap, length_seqZ.
      destruct (Z.lt_ge_cases (Z.of_nat k) (count m + 1)) as [Hk' | Hk'].
      * replace (k - Z.to_nat (count m))%nat with 0%nat by lia.
        rewrite lookup_seqZ_lt by lia. cbn. rewrite Hn. do 2 f_equal. lia.
      * rewrite lookup_seqZ_ge by lia.
        replace (k - Z.to_nat (count m))%nat
          with (S (k - Z.to_nat (count m) - 1)) by lia.
        reflexivity.
  - assert (Heq : count m = capacity m) by lia.
    destruct (Hfull Heq) as [-> _]. rewrite <- Heq, fmap_drop, Hl.
    destruct (Z.lt_ge_cases (Z.of_nat k) (count m - 1)) as [Hk | Hk].
    + rewrite lookup_app_l
        by (rewrite length_drop, length_fmap, length_seqZ; lia).
      rewrite lookup_drop, list_lookup_fmap, !lookup_seqZ_lt by lia.
      cbn. do 2 f_equal. lia.
    + rewrite lookup_app_r
        by (rewrite length_drop, length_fmap, length_seqZ; lia).
      rewrite length_drop, length_fmap, length_seqZ.
      destruct (Z.lt_ge_cases (Z.of_nat k) (count m)) as [Hk' | Hk'].
      * replace (k - (Z.to_nat (count m) - 1))%nat with 0%nat by lia.
        rewrite lookup_seqZ_lt by lia. cbn. rewrite Hn. do 2 f_equal. lia.
      * rewrite lookup_seqZ_ge by lia.
        replace (k - (Z.to_nat (count m) - 1))%nat
          with (S (k - (Z.to_nat (count m) - 1) - 1)) by lia.
        reflexivity.
Qed.

Lemma live_seqs_append_all ins : forall m N,
  ring_wf m ->
  next_seq m = wrap64 N ->
  seq <$> live m
    = (λ i, wrap64 (N - count m + i)) <$> seqZ 0 (count m) ->
  let m' := append_all m ins in
  let N' := N + Z.of_nat (length ins) in
  next_seq m' = wrap64 N'
  /\ seq <$> live m'
     = (λ i, wrap64 (N' - count m' + i)) <$> seqZ 0 (count m').
Proof.
  induction ins as [| a ins IH]; intros m N Hwf Hn Hl.
  - cbn [append_all fold_left length Z.of_nat]. rewrite Z.add_0_r. auto.
  - destruct (live_seqs_append m a N Hwf Hn Hl) as [Hn' Hl'].
    specialize (IH (append_step m a) (N + 1) (wf_append m a Hwf) Hn' Hl').
    cbn zeta in IH |- *. cbn [length]. rewrite Nat2Z.inj_succ.
    replace (N + Z.succ (Z.of_nat (length ins)))
      with (N + 1 + Z.of_nat (length ins)) by lia.
    exact IH.
Qed.

(** The [i]-th append stores the caller's message under the sequence
    number the counter held. *)
Lemma append_trace_lookup ins : forall m N i x,
  ring_wf m ->
  next_seq m = wrap64 N ->
  append_trace m ins !! i = Some x ->
  exists a, ins !! i = Some a
    /\ seq x = wrap64 (N + Z.of_nat i)
    /\ tid x = a.1.2 /\ ts x = a.2 /\ msg x = msg a.1.1.
Proof.
  induction ins as [| a ins IH]; intros m N i x Hwf Hn Hx; [done |].
  pose proof (append_fields m a Hwf) as (_ & _ & Hns & _).
  destruct i as [| i].
  - cbn in Hx. injection Hx as <-. exists a. split; [reflexivity |].
    rewrite (append_entries m a (head_in_range m Hwf)).
    pose proof (head_in_range m Hwf) as Hin.
    destruct Hwf as [Hcap Hlen Htail Hcount Hhead].
    assert (Hhr : 0 <= head m).
    { rewrite Hhead. apply Z.mod_pos_bound. lia. }
    rewrite entry_at_insert, Z.eqb_refl by lia.
    cbn. rewrite Hn, Z.add_0_r. auto.
  - cbn [append_trace] in Hx. rewrite lookup_cons in Hx.
    destruct (IH (append_step m a) (N + 1) i x (wf_append m a Hwf)) as
      (a' & Ha' & Hs & Hrest); [now rewrite Hns, Hn, wrap64_succ | exact Hx |].
    exists a'. split; [exact Ha' |]. rewrite Hs. split; [| exact Hrest].
    f_equal. lia.
Qed.

Lemma append_trace_length ins : forall m,
  length (append_trace m ins) = length ins.
Proof.
  induction ins as [| a ins IH]; intros m; [reflexivity |].
  cbn [append_trace length]. now rewrite IH.
Qed.

(** ** Indices and counters alone *)

Lemma next_seq_step m a :
  next_seq (append_step m a) = wrap64 (next_seq m + 1).
Proof.
  destruct a as [[e self] now]. unfold append_step, append_locked.
  cbn [fst snd]. destruct (count m <? capacity m); reflexivity.
Qed.

Lemma next_seq_append_all ins : forall m N,
  next_seq m = wrap64 N ->
  next_seq (append_all m ins) = wrap64 (N + Z.of_nat (length ins)).
Proof.
  induction ins as [| a ins IH]; intros m N Hn.
  - cbn [append_all fold_left length Z.of_nat]. now rewrite Z.add_0_r.
  - change (append_all m (a :: ins)) with (append_all (append_step m a) ins).
    rewrite (IH (append_step m a) (N + 1))
      by now rewrite next_seq_step, Hn, wrap64_succ.
    f_equal. cbn [length]. lia.
Qed.

Lemma num_fields m a :
  ring_num m ->
  let m' := append_step m a in
  capacity m' = capacity m
  /\ head m' = (head m + 1) mod capacity m
  /\ (count m < capacity m -> count m' = count m + 1 /\ tail m' = tail m)
  /\ (count m = capacity m ->
      count m' = capacity m /\ tail m' = (tail m + 1) mod capacity m).
Proof.
  intros [Hcap Htail Hcount Hhead]. destruct a as [[e self] now].
  assert (Hh : 0 <= head m < capacity m).
  { rewrite Hhead. apply Z.mod_pos_bound. lia. }
  unfold append_step, append_locked, buffer_index. cbn [fst snd].
  destruct (Z.ltb_spec (count m) (capacity m)) as [Hlt | Hge];
    cbn [capacity head tail count];
    rewrite ?(wrap64_small (head m + 1)), ?(wrap64_small (count m + 1)),
      ?(wrap64_small (tail m + 1)) by lia;
    repeat split; try reflexivity; intros; lia.
Qed.

Lemma num_append m a : ring_num m -> ring_num (append_step m a).
Proof.
  intros Hn. pose proof (num_fields m a Hn) as (Hc & Hh & Hlt & Hfull).
  destruct Hn as [Hcap Htail Hcount Hhead].
  destruct (Z.lt_ge_cases (count m) (capacity m)) as [Hl | Hg].
  - destruct (Hlt Hl) as [Hc' Ht'].
    constructor; rewrite ?Hc, ?Hc', ?Ht', ?Hh; try lia.
    unfold_mods; lia.
  - assert (Heq : count m = capacity m) by lia.
    destruct (Hfull Heq) as [Hc' Ht'].
    constructor; rewrite ?Hc, ?Hc', ?Ht', ?Hh; try lia; unfold_mods; lia.
Qed.

Lemma num_append_all ins : forall m,
  ring_num m -> ring_num (append_all m ins).
Proof.
  induction ins as [| a ins IH]; intros m Hn; [exact Hn |].
  apply IH. now apply num_append.
Qed.

Lemma num_created cap esz old m :
  0 < cap < SIZE_MOD -> created cap esz old m ->
  ring_num m /\ capacity m = cap /\ count m = 0 /\ head m = 0
  /\ tail m = 0 /\ next_seq m = 1.
Proof.
  intros Hcap Hcr. unfold created, rwlog_create in Hcr.
  destruct (Z.eqb_spec cap 0) as [-> | Hne]; [lia |].
  injection Hcr as <-. unfold initial_monitor.
  repeat split; cbn [capacity tail count head]; lia.
Qed.

Lemma num_count_append_all ins : forall m,
  ring_num m ->
  count (append_all m ins)
  = Z.min (count m + Z.of_nat (length ins)) (capacity m)
  /\ capacity (append_all m ins) = capacity m.
Proof.
  induction ins as [| a ins IH]; intros m Hn.
  - destruct Hn. cbn [append_all fold_left length]. lia.
  - pose proof (num_fields m a Hn) as (Hc & _ & Hlt & Hfull).
    destruct (IH (append_step m a) (num_append m a Hn)) as [IHc IHcap].
    change (append_all m (a :: ins)) with (append_all (append_step m a) ins).
    rewrite IHc, IHcap, Hc. split; [| reflexivity].
    destruct Hn as [Hcap Htail Hcount Hhead].
    cbn [length]. rewrite Nat2Z.inj_succ.
    destruct (Z.lt_ge_cases (count m) (capacity m)) as [Hl | Hg].
    + destruct (Hlt Hl) as [-> _]. lia.
    + destruct (Hfull ltac:(lia)) as [-> _]. lia.
Qed.

(** The slots of the live window: an append adds the slot it writes,
    [head], and on a full buffer drops the oldest slot, which is that
    same slot. *)
Lemma live_slots_append m a :
  ring_num m ->
  live_slots (append_step m a)
  = (if count m <? capacity m then live_slots m
     else drop 1 (live_slots m)) ++ [head m].
Proof.
  intros Hn. pose proof (num_fields m a Hn) as (Hc & Hh & Hlt & Hfull).
  destruct Hn as [Hcap Htail Hcount Hhead].
  assert (Hlen : forall m0, length (live_slots m0) = Z.to_nat (count m0)).
  { intros m0. unfold live_slots. now rewrite length_fmap, length_seqZ. }
  assert (Hlook : forall m0 k, Z.of_nat k < count m0 ->
    live_slots m0 !! k
    = Some (buffer_index (tail m0 + Z.of_nat k) (capacity m0))).
  { intros m0 k Hk. unfold live_slots.
    now rewrite list_lookup_fmap, lookup_seqZ_lt. }
  apply list_eq. intros k.
  destruct (Z.lt_ge_cases (Z.of_nat k) (count (append_step m a)))
    as [Hk | Hk].
  - rewrite Hlook by exact Hk. rewrite Hc. unfold buffer_index.
    destruct (Z.ltb_spec (count m) (capacity m)) as [Hl | Hg].
    + destruct (Hlt Hl) as [Hc' Ht']. rewrite Hc' in Hk. rewrite Ht'.
      destruct (Z.lt_ge_cases (Z.of_nat k) (count m)) as [Hk1 | Hk1].
      * rewrite lookup_app_l by (rewrite Hlen; lia).
        now rewrite Hlook.
      * rewrite lookup_app_r by (rewrite Hlen; lia). rewrite Hlen.
        replace (k - Z.to_nat (count m))%nat with 0%nat by lia.
        cbn. rewrite Hhead. do 2 f_equal. lia.
    + assert (Heq : count m = capacity m) by lia.
      destruct (Hfull Heq) as [Hc' Ht']. rewrite Hc' in Hk. rewrite Ht'.
      destruct (Z.lt_ge_cases (Z.of_nat k) (capacity m - 1)) as [Hk1 | Hk1].
      * rewrite lookup_app_l by (rewrite length_drop, Hlen; lia).
        rewrite lookup_drop, Hlook by lia. unfold buffer_index.
        f_equal. unfold_mods; lia.
      * rewrite lookup_app_r by (rewrite length_drop, Hlen; lia).
        rewrite length_drop, Hlen.
        replace (k - (Z.to_nat (count m) - 1))%nat with 0%nat by lia.
        cbn. f_equal. rewrite Hhead, Heq. unfold_mods; lia.
  - unfold live_slots at 1.
    rewrite list_lookup_fmap, lookup_seqZ_ge by exact Hk.
    symmetry. apply lookup_ge_None_2. rewrite length_app. cbn [length].
    destruct (Z.ltb_spec (count m) (capacity m)) as [Hl | Hg].
    + destruct (Hlt Hl) as [Hc' _]. rewrite Hlen. lia.
    + destruct (Hfull ltac:(lia)) as [Hc' _]. rewrite length_drop, Hlen. lia.
Qed.

Lemma live_as_slots m : live m = entry_at (entries m) <$> live_slots m.
Proof.
  unfold live, live_slots. rewrite <- list_fmap_compose. reflexivity.
Qed.

(** ** Strictly increasing lists *)

Lemma increasing_lookup (l : list Z) :
  (forall i x y, l !! i = Some x -> l !! S i = Some y -> x < y) ->
  increasing l.
Proof.
  induction l as [| x l IH]; intros H; [exact I |].
  destruct l as [| y l]; [exact I |]. split.
  - apply (H 0%nat); reflexivity.
  - apply IH. intros i u v Hu Hv. apply (H (S i)); assumption.
Qed.

Lemma increasing_elim (l : list Z) : forall i j x y,
  increasing l -> (i < j)%nat ->
  l !! i = Some x -> l !! j = Some y -> x < y.
Proof.
  induction l as [| u l IH]; intros i j x y Hinc Hij Hx Hy; [done |].
  destruct l as [| v l]; [destruct i, j; done || lia |].
  destruct Hinc as [Huv Hinc].
  destruct j as [| j]; [lia |]. destruct i as [| i].
  - injection Hx as <-. destruct j as [| j].
    + injection Hy as <-. exact Huv.
    + pose proof (IH 0%nat (S j) v y Hinc ltac:(lia) eq_refl Hy). lia.
  - apply (IH i j x y Hinc); [lia | exact Hx | exact Hy].
Qed.

(** A run of consecutive numbers that does not pass [2^64] is increasing,
    and so is every prefix of it. *)
Lemma increasing_run b c k :
  0 <= b -> b + c <= SIZE_MOD ->
  increasing (take k ((λ i, wrap64 (b + i)) <$> seqZ 0 c)).
Proof.
  intros Hb Hc. apply increasing_lookup. intros i x y Hx Hy.
  apply lookup_take_Some in Hx as [Hx _].
  apply lookup_take_Some in Hy as [Hy _].
  rewrite list_lookup_fmap in Hx, Hy.
  destruct (seqZ 0 c !! i) as [u |] eqn:Hu; [| done].
  destruct (seqZ 0 c !! S i) as [v |] eqn:Hv; [| done].
  apply lookup_seqZ in Hu as [-> Hu]. apply lookup_seqZ in Hv as [-> Hv].
  injection Hx as <-. injection Hy as <-.
  rewrite !wrap64_small by lia. lia.
Qed.

(** ** The snapshot *)

Lemma snapshot_copy_lookup m start n : forall i buf k,
  0 <= i -> (Z.to_nat i + n <= length buf)%nat ->
  snapshot_copy m start n i buf !! k
  = if (i <=? Z.of_nat k) && (Z.of_nat k <? i + Z.of_nat n)
    then Some (entry_at (entries m)
                 (buffer_index (wrap64 (start + Z.of_nat k)) (capacity m)))
    else buf !! k.
Proof.
  induction n as [| n IH]; intros i buf k Hi Hlen.
  - cbn [snapshot_copy].
    destruct (Z.leb_spec i (Z.of_nat k)), (Z.ltb_spec (Z.of_nat k) (i + Z.of_nat 0));
      cbn; try reflexivity; lia.
  - cbn [snapshot_copy]. rewrite IH by (rewrite ?length_insert; lia).
    destruct (Z.leb_spec (i + 1) (Z.of_nat k)) as [H1 | H1],
             (Z.ltb_spec (Z.of_nat k) (i + 1 + Z.of_nat n)) as [H2 | H2],
             (Z.leb_spec i (Z.of_nat k)) as [H3 | H3],
             (Z.ltb_spec (Z.of_nat k) (i + Z.of_nat (S n))) as [H4 | H4];
      cbn [andb]; try reflexivity; try lia;
      try (rewrite list_lookup_insert_ne by lia; reflexivity).
    assert (Hk : k = Z.to_nat i) by lia.
    rewrite Hk, list_lookup_insert_eq by lia.
    do 4 f_equal. lia.
Qed.

Lemma snapshot_copy_live m buf n :
  ring_wf m -> capacity m <= PTRDIFF_MAX ->
  0 <= n <= count m -> (Z.to_nat n <= length buf)%nat ->
  snapshot_copy m (tail m) (Z.to_nat n) 0 buf
  = take (Z.to_nat n) (live m) ++ drop (Z.to_nat n) buf.
Proof.
  intros [Hcap Hlen Htail Hcount Hhead] Hmax Hn Hbuf.
  assert (Hpm : PTRDIFF_MAX + PTRDIFF_MAX < SIZE_MOD) by reflexivity.
  apply list_eq. intros k.
  rewrite snapshot_copy_lookup by lia. rewrite Z2Nat.id by lia.
  destruct (Z.leb_spec 0 (Z.of_nat k)) as [_ | ?]; [| lia].
  destruct (Z.ltb_spec (Z.of_nat k) (0 + n)) as [Hk | Hk]; cbn [andb].
  - rewrite lookup_app_l
      by (rewrite length_take, live_length; lia).
    rewrite lookup_take_lt by lia. rewrite live_lookup.
    destruct (Z.ltb_spec (Z.of_nat k) (count m)); [| lia].
    rewrite wrap64_small by lia. reflexivity.
  - rewrite lookup_app_r
      by (rewrite length_take, live_length; lia).
    rewrite lookup_drop, length_take, live_length. f_equal. lia.
Qed.

Lemma rwlog_snapshot_spec m buf max :
  ring_wf m -> capacity m <= PTRDIFF_MAX ->
  0 <= max < SIZE_MOD ->
  (Z.to_nat (Z.min (count m) max) <= length buf)%nat ->
  rwlog_snapshot (Some m) (Some buf) max
  = (Z.min (count m) max,
     Some (take (Z.to_nat (Z.min (count m) max)) (live m)
             ++ drop (Z.to_nat (Z.min (count m) max)) buf),
     Some m).
Proof.
  intros Hwf Hcapmax Hmax Hbuf. unfold rwlog_snapshot.
  pose proof Hwf as [Hcap Hlen Htail Hcount Hhead].
  destruct (Z.eqb_spec max 0) as [-> | Hne].
  - replace (Z.min (count m) 0) with 0 by lia. reflexivity.
  - assert (Hmin : (if count m <? max then count m else max)
                   = Z.min (count m) max).
    { destruct (Z.ltb_spec (count m) max); lia. }
    rewrite Hmin. set (n := Z.min (count m) max) in *.
    assert (Hn : 0 <= n <= count m) by lia.
    unfold to_ptrdiff. destruct (Z.leb_spec n PTRDIFF_MAX); [| lia].
    destruct (Z.ltb_spec 0 n) as [Hpos | Hz].
    + now rewrite snapshot_copy_live.
    + replace n with 0 by lia. reflexivity.
Qed.

(** ** Counting threads *)

Lemma population_bounds x l : 0 <= population x l <= Z.of_nat (length l).
Proof.
  induction l as [| y l IH]; cbn [population length]; [lia |].
  destruct (bool_decide (y = x)); lia.
Qed.

Lemma population_insert x l : forall t a b,
  l !! t = Some a ->
  population x (<[t := b]> l)
  = population x l
    - (if bool_decide (a = x) then 1 else 0)
    + (if bool_decide (b = x) then 1 else 0).
Proof.
  induction l as [| y l IH]; intros t a b Ht; [done |].
  destruct t as [| t].
  - injection Ht as ->. cbn [population]. cbn. lia.
  - cbn in Ht. cbn [population]. change (<[S t:=b]> (y :: l))
      with (y :: <[t:=b]> l). cbn [population].
    rewrite (IH t a b Ht). lia.
Qed.

Lemma population_replicate x n :
  x <> Idle -> population x (replicate n Idle) = 0.
Proof.
  intros Hx. induction n as [| n IH]; [reflexivity |].
  cbn [replicate population]. rewrite IH.
  rewrite bool_decide_eq_false_2 by congruence. reflexivity.
Qed.

Lemma population_lookup x l : forall t,
  l !! t = Some x -> 1 <= population x l.
Proof.
  induction l as [| y l IH]; intros t Ht; [done |].
  cbn [population]. destruct t as [| t].
  - injection Ht as ->. rewrite bool_decide_eq_true_2 by reflexivity.
    pose proof (population_bounds x l). lia.
  - specialize (IH t Ht). destruct (bool_decide (y = x)); lia.
Qed.

Lemma population_two x l t1 t2 :
  x <> Idle -> t1 <> t2 ->
  l !! t1 = Some x -> l !! t2 = Some x -> 2 <= population x l.
Proof.
  intros Hx Hne H1 H2.
  pose proof (population_insert x l t1 x Idle H1) as H.
  rewrite bool_decide_eq_true_2 in H by reflexivity.
  rewrite (bool_decide_eq_false_2 (Idle = x)) in H by congruence.
  assert (H2' : <[t1 := Idle]> l !! t2 = Some x)
    by (rewrite list_lookup_insert_ne; assumption).
  pose proof (population_lookup x _ t2 H2'). lia.
Qed.

(** ** The counters count the threads *)

Lemma created_sync cap esz old m :
  created cap esz old m ->
  readers_active m = 0 /\ readers_waiting m = 0
  /\ writers_waiting m = 0 /\ writer_active m = 0.
Proof.
  unfold created, rwlog_create. destruct (cap =? 0); [discriminate |].
  intros H. injection H as <-. cbn. auto.
Qed.

Lemma sync_inv_init cap esz old m n :
  created cap esz old m -> sync_inv (init_system m n).
Proof.
  intros (Hra & Hrw & Hww & Hwa)%created_sync.
  constructor; cbn [mon threads init_system];
    rewrite ?population_replicate by discriminate; auto; lia.
Qed.

(** Rewrites the population of the thread list a step leaves. *)
Ltac count_threads Ht :=
  cbn [mon threads with_sync readers_active readers_waiting
       writers_waiting writer_active];
  rewrite ?(population_insert _ _ _ _ _ Ht);
  repeat case_bool_decide; try congruence.

Lemma exec_inv s t o s' :
  sync_inv s -> exec s t o = Some s' -> sync_inv s'.
Proof.
  intros [Hra Hrw Hww Hwa Hone Hexcl] He. unfold exec in He.
  destruct (threads s !! t) as [st |] eqn:Ht; [| discriminate].
  pose proof (population_bounds Reading (threads s)) as Br.
  pose proof (population_bounds WaitWrite (threads s)) as Bw.
  pose proof (population_lookup _ _ _ Ht) as Bst.
  destruct st, o; try discriminate; injection He as <-;
    unfold settle, begin_read_wake, begin_read_loop, begin_write_entry,
      begin_write_wake, begin_write_loop, end_read_locked,
      end_write_locked;
    cbn [with_sync readers_active readers_waiting writers_waiting
         writer_active];
    repeat match goal with
      | |- context [?a =? ?b] => destruct (Z.eqb_spec a b)
      | |- context [?a <? ?b] => destruct (Z.ltb_spec a b)
      end;
    cbn [negb orb]; constructor; count_threads Ht; lia.
Qed.

Lemma run_inv tr : forall s s',
  sync_inv s -> run s tr = Some s' -> sync_inv s'.
Proof.
  induction tr as [| [t o] tr IH]; intros s s' Hinv Hrun.
  - injection Hrun as <-. exact Hinv.
  - cbn [run] in Hrun. destruct (exec s t o) as [s1 |] eqn:He;
      [| discriminate].
    exact (IH s1 s' (exec_inv s t o s1 Hinv He) Hrun).
Qed.

(** The counters stay within the number of threads, so the [int]
    increments and decrements of the code never overflow when there are at
    most [INT_MAX] threads. *)
Lemma counters_in_range s :
  sync_inv s -> Z.of_nat (length (threads s)) <= INT_MAX ->
  0 <= readers_active (mon s) <= INT_MAX
  /\ 0 <= readers_waiting (mon s) <= INT_MAX
  /\ 0 <= writers_waiting (mon s) <= INT_MAX
  /\ 0 <= writer_active (mon s) <= INT_MAX.
Proof.
  intros [Hra Hrw Hww Hwa Hone Hexcl] Hn.
  rewrite Hra, Hrw, Hww, Hwa.
  pose proof (population_bounds Reading (threads s)).
  pose proof (population_bounds WaitRead (threads s)).
  pose proof (population_bounds WaitWrite (threads s)).
  pose proof (population_bounds Writing (threads s)).
  lia.
Qed.

(** ** Stores made by [rwlog_create] and appends *)

Lemma take_fmap_seqZ {A} (f : Z -> A) n c :
  0 <= n <= c ->
  take (Z.to_nat n) (f <$> seqZ 0 c) = f <$> seqZ 0 n.
Proof.
  intros Hn. apply list_eq. intros k.
  destruct (Z.lt_ge_cases (Z.of_nat k) n) as [Hk | Hk].
  - rewrite lookup_take_lt by lia.
    rewrite !list_lookup_fmap, !lookup_seqZ_lt by lia. reflexivity.
  - rewrite lookup_take_ge by lia.
    rewrite list_lookup_fmap, lookup_seqZ_ge by lia. reflexivity.
Qed.

(** What [n] appends to a fresh store leave: the counter at [1 + n], and
    among the live entries the last [count] sequence numbers, both modulo
    [2^64]. *)
Lemma store_after_appends cap esz old m0 ins :
  fits cap esz ->
  created cap esz old m0 ->
  let m := append_all m0 ins in
  let n := Z.of_nat (length ins) in
  ring_wf m
  /\ capacity m = cap
  /\ count m = Z.min n cap
  /\ next_seq m = wrap64 (1 + n)
  /\ seq <$> live m = (λ i, wrap64 (1 + n - count m + i)) <$> seqZ 0 (count m).
Proof.
  intros Hcap Hcr m n.
  destruct (wf_created cap esz old m0 Hcap Hcr)
    as (Hwf0 & Hc0 & Hn0 & _ & _ & Hs0 & _).
  destruct (count_append_all ins m0 Hwf0) as [Hcnt Hcapm].
  assert (Hseq0 : seq <$> live m0
                  = (λ i, wrap64 (1 - count m0 + i)) <$> seqZ 0 (count m0)).
  { unfold live. rewrite Hn0. reflexivity. }
  destruct (live_seqs_append_all ins m0 1 Hwf0 Hs0 Hseq0) as [Hns Hseq].
  split; [now apply wf_append_all |].
  split; [subst m; now rewrite Hcapm |].
  split; [subst m n; rewrite Hcnt, Hn0, Hc0; f_equal |].
  split; [exact Hns | exact Hseq].
Qed.

Lemma flood_length n : 0 <= n -> Z.of_nat (length (flood n)) = n.
Proof.
  intros Hn. unfold flood. rewrite length_replicate. now apply Z2Nat.id.
Qed.

(** * The claims *)

(** C1. Mutual exclusion: in every state that an interleaving of
    [rwlog_begin_read], [rwlog_end_read], [rwlog_begin_write] and
    [rwlog_end_write] steps reaches from a freshly created monitor, an
    active writer means no active reader, an active reader means no active
    writer, at most one thread is between [rwlog_begin_write] and
    [rwlog_end_write], and no thread reads while another writes. *)
Theorem mutual_exclusion cap esz old m0 n tr s :
  created cap esz old m0 ->
  run (init_system m0 n) tr = Some s ->
  (writer_active (mon s) <> 0 -> readers_active (mon s) = 0)
  /\ (0 < readers_active (mon s) -> writer_active (mon s) = 0)
  /\ (forall t1 t2, threads s !! t1 = Some Writing ->
                    threads s !! t2 = Some Writing -> t1 = t2)
  /\ (forall t1 t2, threads s !! t1 = Some Writing ->
                    threads s !! t2 = Some Reading -> False).
Proof.
  intros Hcr Hrun.
  pose proof (run_inv tr _ _ (sync_inv_init cap esz old m0 n Hcr) Hrun)
    as [Hra Hrw Hww Hwa Hone Hexcl].
  repeat split.
  - intros Hw. apply Hexcl. lia.
  - intros Hr. destruct Hone as [H0 | H1]; [exact H0 |].
    specialize (Hexcl H1). lia.
  - intros t1 t2 H1 H2. destruct (decide (t1 = t2)) as [| Hne]; [done |].
    pose proof (population_two Writing _ t1 t2 ltac:(discriminate) Hne H1 H2).
    lia.
  - intros t1 t2 H1 H2.
    pose proof (population_lookup _ _ _ H1).
    pose proof (population_lookup _ _ _ H2).
    lia.
Qed.

Lemma mutual_exclusion_witness :
  exists s,
    created 3 96 [] (initial_monitor 3 96 [])
    /\ run (init_system (initial_monitor 3 96 []) 3) sample_trace = Some s
    /\ threads s = [Idle; Writing; WaitRead]
    /\ (writer_active (mon s) <> 0 -> readers_active (mon s) = 0).
Proof.
  eexists. split; [reflexivity |].
  split; [vm_compute; reflexivity |]. split; [reflexivity |].
  apply (mutual_exclusion 3 96 [] (initial_monitor 3 96 []) 3 sample_trace);
    reflexivity.
Defined.

(** C6. Writer preference at the gate: a step in which a thread gets
    through [rwlog_begin_read] (at the call or after a wait) and
    [readers_active] is incremented never starts in a state where a writer
    is active or a writer is waiting. *)
Theorem reader_gate s t o s' :
  o = BeginRead \/ o = WakeRead ->
  exec s t o = Some s' ->
  threads s' !! t = Some Reading ->
  ~ (writer_active (mon s) <> 0 \/ 0 < writers_waiting (mon s))
  /\ readers_active (mon s') = readers_active (mon s) + 1.
Proof.
  intros Ho He Hr. unfold exec in He.
  destruct (threads s !! t) as [st |] eqn:Ht; [| discriminate].
  apply lookup_lt_Some in Ht as Hlt.
  assert (Hgate : forall m m',
    begin_read_loop m = Entered m' ->
    ~ (writer_active m <> 0 \/ 0 < writers_waiting m)
    /\ readers_active m' = readers_active m + 1).
  { intros m m'. unfold begin_read_loop.
    destruct (Z.eqb_spec (writer_active m) 0) as [Hw | Hw],
             (Z.ltb_spec 0 (writers_waiting m)) as [Hq | Hq];
      cbn [negb orb]; try discriminate.
    intros H. injection H as <-. cbn. split; [| reflexivity].
    intros [? | ?]; [congruence | lia]. }
  destruct Ho as [-> | ->]; destruct st; try discriminate;
    injection He as <-; unfold settle in Hr.
  - destruct (begin_read_loop (mon s)) as [m' | m'] eqn:Hl;
      cbn [threads mon] in *.
    + exact (Hgate _ _ Hl).
    + rewrite list_lookup_insert_eq in Hr by exact Hlt. discriminate.
  - destruct (begin_read_wake (mon s)) as [m' | m'] eqn:Hl;
      cbn [threads mon] in *.
    + exact (Hgate _ _ Hl).
    + rewrite list_lookup_insert_eq in Hr by exact Hlt. discriminate.
Qed.

Lemma reader_gate_witness :
  let s := init_system (initial_monitor 3 96 []) 2 in
  exists s',
    exec s 0%nat BeginRead = Some s'
    /\ threads s' !! 0%nat = Some Reading
    /\ ~ (writer_active (mon s) <> 0 \/ 0 < writers_waiting (mon s))
    /\ readers_active (mon s') = readers_active (mon s) + 1.
Proof.
  intros s. eexists. split; [vm_compute; reflexivity |].
  split; [reflexivity |].
  eapply (reader_gate s 0%nat BeginRead);
    [left; reflexivity | reflexivity | reflexivity].
Defined.

(** C9. Misuse: on a [NULL] monitor (before [rwlog_create] or after
    [rwlog_destroy]) each of [rwlog_begin_read], [rwlog_end_read],
    [rwlog_begin_write], [rwlog_end_write], [rwlog_append] and
    [rwlog_snapshot] returns -1 and changes nothing; [rwlog_append] with a
    [NULL] entry and [rwlog_snapshot] with a [NULL] buffer return -1 and
    change nothing, whatever the monitor. *)
Theorem misuse_fails :
  rwlog_begin_read None = Returned (-1) None
  /\ rwlog_end_read None = (-1, None)
  /\ rwlog_begin_write None = Returned (-1) None
  /\ rwlog_end_write None = (-1, None)
  /\ (forall e self now, rwlog_append None e self now = (-1, None))
  /\ (forall buf max, rwlog_snapshot None buf max = (-1, buf, None))
  /\ (forall g self now, rwlog_append g None self now = (-1, g))
  /\ (forall g max, rwlog_snapshot g None max = (-1, None, g))
  /\ (forall g, (rwlog_destroy g).2 = None).
Proof.
  repeat split; try reflexivity.
  - intros g self now. destruct g; reflexivity.
  - intros g max. destruct g; reflexivity.
Qed.

(** C10. [rwlog_create] while a monitor exists returns -1 and leaves that
    monitor as it is; with capacity 0 it returns -1 and builds nothing; so
    a monitor that [rwlog_create] builds has a positive capacity. *)
Theorem create_guards g cap esz res :
  0 <= cap < SIZE_MOD ->
  (forall m, g = Some m -> rwlog_create g cap esz res = (-1, Some m))
  /\ (cap = 0 -> rwlog_create g cap esz res = (-1, g))
  /\ (forall m, rwlog_create g cap esz res = (0, Some m) ->
        g = None /\ capacity m = cap /\ 0 < capacity m).
Proof.
  intros Hcap. split; [| split].
  - intros m ->. reflexivity.
  - intros ->. destruct g; reflexivity.
  - intros m Hok. unfold rwlog_create in Hok.
    destruct g as [m1 |]; [discriminate |].
    destruct (Z.eqb_spec cap 0) as [| Hne]; [discriminate |].
    destruct res as [old |]; [| discriminate].
    injection Hok as <-. cbn [initial_monitor capacity].
    split; [reflexivity |]. split; [reflexivity | lia].
Qed.

Lemma create_guards_witness :
  0 <= 3 < SIZE_MOD
  /\ rwlog_create None 3 96 (Some []) = (0, Some (initial_monitor 3 96 []))
  /\ capacity (initial_monitor 3 96 []) = 3
  /\ 0 < capacity (initial_monitor 3 96 []).
Proof.
  assert (H : 0 <= 3 < SIZE_MOD) by (unfold SIZE_MOD; lia).
  split; [exact H |]. split; [reflexivity |].
  exact (proj2 (proj2 (proj2 (create_guards None 3 96 (Some []) H))
                  (initial_monitor 3 96 []) eq_refl)).
Defined.

(** C2, as the claim states it, fails: the first append to a fresh monitor
    of capacity 3 stores its entry under sequence number 1 and returns
    0.  (And the stored entry exists only where the array does: with
    entries of 96 bytes and a capacity whose byte size wraps,
    [rwlog_create] returns 0 with an array without a single slot, and the
    slot of the first append lies outside it.) *)
Lemma append_returns_status :
  let m := initial_monitor 3 96 [] in
  let r := rwlog_append (Some m) (Some (say 65 7).1.1) 7 t0 in
  (created 3 96 [] m
   /\ next_seq m = 1
   /\ r.1 = 0
   /\ r.1 <> next_seq m
   /\ exists m', r.2 = Some m'
                 /\ seq (entry_at (entries m') (head m)) = 1)
  /\ (let w := initial_monitor wrapping_capacity 96 [] in
      created wrapping_capacity 96 [] w
      /\ length (entries w) = 0%nat
      /\ head w = 0
      /\ seq (entry_at (entries (append_step w (say 65 7))) (head w))
         <> next_seq w).
Proof.
  cbv zeta. split.
  - repeat split; try reflexivity.
    + discriminate.
    + eexists. split; reflexivity.
  - repeat split; try reflexivity. vm_compute. discriminate.
Qed.

(** C2, amended. Every append to a created monitor with a non-[NULL]
    entry returns 0, the success code, and moves [next_seq] on by one
    (modulo [2^64]); the sequence number it assigns, the value of
    [next_seq] at the call, is not returned but written into the stored
    entry, slot [head] of the array, which is there whenever the byte
    size of the array does not wrap. *)
Theorem append_returns_zero cap esz old m0 ins a :
  created cap esz old m0 ->
  let m := append_all m0 ins in
  rwlog_append (Some m) (Some a.1.1) a.1.2 a.2
    = (0, Some (append_step m a))
  /\ next_seq (append_step m a) = wrap64 (next_seq m + 1)
  /\ (fits cap esz ->
      seq (entry_at (entries (append_step m a)) (head m)) = next_seq m).
Proof.
  intros Hcr m.
  split; [reflexivity |]. split; [apply next_seq_step |].
  intros Hf.
  destruct (wf_created cap esz old m0 Hf Hcr) as [Hwf0 _].
  pose proof (wf_append_all ins m0 Hwf0) as Hwf. fold m in Hwf.
  rewrite (append_entries m a (head_in_range m Hwf)).
  pose proof (head_in_range m Hwf).
  destruct Hwf as [Hc Hlen Htail Hcount Hhead].
  assert (0 <= head m) by (rewrite Hhead; apply Z.mod_pos_bound; lia).
  rewrite entry_at_insert, Z.eqb_refl by lia. reflexivity.
Qed.

Lemma append_returns_zero_witness :
  let m := append_all (initial_monitor 3 96 []) [say 65 7] in
  created 3 96 [] (initial_monitor 3 96 [])
  /\ fits 3 96
  /\ rwlog_append (Some m) (Some (say 66 8).1.1) 8 t0
       = (0, Some (append_step m (say 66 8)))
  /\ seq (entry_at (entries (append_step m (say 66 8))) (head m)) = 2.
Proof.
  intros m.
  assert (Hf : fits 3 96) by (unfold fits, SIZE_MOD; lia).
  split; [reflexivity |]. split; [exact Hf |].
  destruct (append_returns_zero 3 96 [] (initial_monitor 3 96 []) [say 65 7]
              (say 66 8) eq_refl) as (Hr & _ & Hs).
  split; [exact Hr | exact (Hs Hf)].
Defined.

(** C3. Capacity bound and eviction: after any sequence of appends to a
    store created with capacity [cap > 0] the count is at most [cap]; an
    append to a store that is not full increments the count, leaves the
    tail and adds the slot it writes, [head], behind the live slots; an
    append to a full store keeps the count at [cap], advances the tail by
    one modulo [cap] and writes the slot of the oldest live entry, which
    leaves the live window at its front and comes back at its end.  All
    this is arithmetic on the counters and holds for every capacity.
    Where the byte size of the array does not wrap, the slots are there,
    and the live entries are the former ones, without the oldest on a
    full store, followed by the stored copy; with capacity 3, four
    appends leave the live entries with sequence numbers 2, 3, 4. *)
Theorem capacity_bound_eviction cap esz old m0 ins a :
  0 < cap < SIZE_MOD ->
  created cap esz old m0 ->
  let m := append_all m0 ins in
  let m' := append_step m a in
  capacity m' = cap
  /\ 0 <= count m <= cap
  /\ count m' <= cap
  /\ (count m < cap ->
      count m' = count m + 1 /\ tail m' = tail m
      /\ live_slots m' = live_slots m ++ [head m])
  /\ (count m = cap ->
      count m' = cap /\ tail m' = (tail m + 1) mod cap
      /\ head m = tail m
      /\ live_slots m' = drop 1 (live_slots m) ++ [head m])
  /\ (fits cap esz ->
      (count m < cap -> live m' = live m ++ [stamped m a])
      /\ (count m = cap -> live m' = drop 1 (live m) ++ [stamped m a])
      /\ (cap = 3 -> length ins = 3%nat -> seq <$> live m' = [2; 3; 4])).
Proof.
  intros Hcap Hcr m m'.
  destruct (num_created cap esz old m0 Hcap Hcr)
    as (Hn0 & Hc0 & Hk0 & _ & _ & Hs0).
  pose proof (num_append_all ins m0 Hn0) as Hn. fold m in Hn.
  destruct (num_count_append_all ins m0 Hn0) as [Hcnt Hcapm].
  fold m in Hcnt, Hcapm. rewrite Hc0 in Hcapm.
  pose proof (num_fields m a Hn) as (Hc & _ & Hlt & Hfull).
  fold m' in Hc, Hlt, Hfull.
  pose proof (live_slots_append m a Hn) as Hslots. fold m' in Hslots.
  pose proof Hn as [_ Htail Hcount Hhead].
  rewrite Hcapm in *.
  split; [exact Hc |]. split; [exact Hcount |].
  split; [| split; [| split]].
  - destruct (Z.lt_ge_cases (count m) cap) as [Hl | Hg].
    + destruct (Hlt Hl). lia.
    + destruct (Hfull ltac:(lia)). lia.
  - intros Hl. destruct (Hlt Hl) as [H1 H2]. repeat split; try assumption.
    rewrite Hslots. destruct (Z.ltb_spec (count m) cap); [reflexivity | lia].
  - intros He. destruct (Hfull He) as [H1 H2]. repeat split; try assumption.
    + rewrite Hhead, He. unfold_mods; lia.
    + rewrite Hslots. destruct (Z.ltb_spec (count m) cap); [lia | reflexivity].
  - intros Hf.
    destruct (wf_created cap esz old m0 Hf Hcr) as [Hwf0 _].
    pose proof (wf_append_all ins m0 Hwf0) as Hwf. fold m in Hwf.
    pose proof (live_append m a Hwf) as Hlive. fold m' in Hlive.
    rewrite Hcapm in Hlive.
    split; [| split].
    + intros Hl. rewrite Hlive.
      destruct (Z.ltb_spec (count m) cap); [reflexivity | lia].
    + intros He. rewrite Hlive.
      destruct (Z.ltb_spec (count m) cap); [lia | reflexivity].
    + intros -> Hlen.
      assert (Hseq0 : seq <$> live m0
                      = (λ i, wrap64 (1 - count m0 + i))
                          <$> seqZ 0 (count m0)).
      { unfold live. rewrite Hk0. reflexivity. }
      destruct (live_seqs_append_all (ins ++ [a]) m0 1 Hwf0 Hs0 Hseq0)
        as [_ Hseq].
      unfold append_all in Hseq. rewrite fold_left_app in Hseq.
      change (seq <$> live m'
              = (λ i, wrap64 (1 + Z.of_nat (length (ins ++ [a]))
                               - count m' + i)) <$> seqZ 0 (count m'))
        in Hseq.
      assert (Hc3 : count m' = 3).
      { rewrite Hk0, Hc0, Hlen in Hcnt. destruct (Hfull ltac:(lia)). lia. }
      rewrite Hseq, Hc3, length_app, Hlen. reflexivity.
Qed.

Lemma capacity_bound_eviction_witness :
  let m0 := initial_monitor 3 96 [] in
  let m' := append_all m0 [say 65 1; say 66 1; say 67 1; say 68 1] in
  0 < 3 < SIZE_MOD /\ created 3 96 [] m0 /\ fits 3 96
  /\ count m' = 3 /\ tail m' = 1
  /\ live_slots m' = [1; 2; 0]
  /\ seq <$> live m' = [2; 3; 4]
  /\ msg <$> live m' = [[66]; [67]; [68]].
Proof.
  intros m0 m'.
  assert (H : 0 < 3 < SIZE_MOD) by (unfold SIZE_MOD; lia).
  assert (Hf : fits 3 96) by (unfold fits, SIZE_MOD; lia).
  split; [exact H |]. split; [reflexivity |]. split; [exact Hf |].
  split; [reflexivity |]. split; [reflexivity |]. split; [reflexivity |].
  split; [| reflexivity].
  exact (proj2 (proj2 (proj2 (proj2 (proj2 (proj2 (proj2
           (capacity_bound_eviction 3 96 [] m0 [say 65 1; say 66 1; say 67 1]
              (say 68 1) H eq_refl))))) Hf)) eq_refl eq_refl).
Defined.

(** C7, as the claim states it, fails: an entry the caller filled with
    producer id 5, appended by thread 9, is stored with producer id 9.
    (And the stored copy exists only where the array does: with entries
    of 96 bytes and a capacity whose byte size wraps, [rwlog_create]
    returns 0 with an array without a single slot, and the slot of the
    first append lies outside it.) *)
Lemma append_overrides_tid :
  let e := {| seq := 0; tid := 5; ts := t0; msg := [65] |} in
  (let m := initial_monitor 3 96 [] in
   let m' := append_locked m e 9 t0 in
   created 3 96 [] m
   /\ tid (entry_at (entries m') (head m)) = 9
   /\ tid (entry_at (entries m') (head m)) <> tid e
   /\ msg (entry_at (entries m') (head m)) = msg e)
  /\ (let w := initial_monitor wrapping_capacity 96 [] in
      let w' := append_locked w e 9 t0 in
      created wrapping_capacity 96 [] w
      /\ length (entries w) = 0%nat
      /\ head w = 0
      /\ msg (entry_at (entries w') (head w)) <> msg e).
Proof.
  cbv zeta. split.
  - repeat split; try reflexivity. discriminate.
  - repeat split; try reflexivity. vm_compute. discriminate.
Qed.

(** C7, amended. For every append of a caller's entry to a store whose
    array has a byte size that does not wrap, the stored copy keeps the
    caller's payload [msg]; its [seq], [tid] and [ts] are the monitor's:
    the sequence counter, the calling thread ([pthread_self]) and the
    clock reading.  The other slots of the array are left as they
    were. *)
Theorem append_frame cap esz old m0 ins e self now :
  fits cap esz ->
  created cap esz old m0 ->
  let m := append_all m0 ins in
  let m' := append_locked m e self now in
  let stored := entry_at (entries m') (head m) in
  msg stored = msg e
  /\ seq stored = next_seq m
  /\ tid stored = self
  /\ ts stored = now
  /\ (forall i, 0 <= i -> i <> head m ->
        entry_at (entries m') i = entry_at (entries m) i).
Proof.
  intros Hcap Hcr m m' stored.
  destruct (wf_created cap esz old m0 Hcap Hcr) as [Hwf0 _].
  pose proof (wf_append_all ins m0 Hwf0) as Hwf. fold m in Hwf.
  pose proof (head_in_range m Hwf) as Hin.
  pose proof (append_entries m (e, self, now) Hin) as He.
  change (append_step m (e, self, now)) with m' in He.
  destruct Hwf as [Hc Hlen Htail Hcount Hhead].
  assert (Hh : 0 <= head m) by (rewrite Hhead; apply Z.mod_pos_bound; lia).
  subst stored. rewrite He.
  rewrite entry_at_insert, Z.eqb_refl by lia.
  repeat split.
  intros i Hi Hne. rewrite entry_at_insert by lia.
  destruct (Z.eqb_spec i (head m)); [contradiction | reflexivity].
Qed.

Lemma append_frame_witness :
  let m := append_all (initial_monitor 3 96 []) [say 65 7] in
  let e := {| seq := 40; tid := 5; ts := mk_timespec 1 2; msg := [66] |} in
  let stored := entry_at (entries (append_locked m e 9 t0)) (head m) in
  fits 3 96 /\ created 3 96 [] (initial_monitor 3 96 [])
  /\ msg stored = [66] /\ seq stored = 2 /\ tid stored = 9
  /\ ts stored = t0.
Proof.
  intros m e stored.
  assert (H : fits 3 96) by (unfold fits, SIZE_MOD; lia).
  split; [exact H |]. split; [reflexivity |].
  destruct (append_frame 3 96 [] (initial_monitor 3 96 []) [say 65 7] e 9 t0
              H eq_refl) as (H1 & H2 & H3 & H4 & _).
  repeat split; assumption.
Defined.

(** C8, as the claim states it, fails in the full state: after one append
    to a store of capacity 1 the count is 1, while head and tail are both
    0 and [(head - tail) mod capacity] is 0. *)
Lemma count_formula_fails_when_full :
  let m := append_all (initial_monitor 1 96 []) [say 65 1] in
  created 1 96 [] (initial_monitor 1 96 [])
  /\ 0 < count m
  /\ count m = capacity m
  /\ (head m - tail m) mod capacity m = 0
  /\ count m <> (head m - tail m) mod capacity m.
Proof.
  cbv zeta. repeat split; try reflexivity. discriminate.
Qed.

(** C8, amended. In every store state reached by appends from a freshly
    created store, [count] and [(head - tail) mod capacity] agree modulo
    [capacity]; so [count = (head - tail) mod capacity] whenever the
    buffer is not full, and in the full state ([count = capacity]) head
    and tail coincide and [(head - tail) mod capacity] is 0. *)
Theorem count_formula cap esz old m0 ins :
  0 < cap < SIZE_MOD ->
  created cap esz old m0 ->
  let m := append_all m0 ins in
  count m mod capacity m = (head m - tail m) mod capacity m
  /\ (count m < capacity m -> count m = (head m - tail m) mod capacity m)
  /\ (count m = capacity m ->
      head m = tail m /\ (head m - tail m) mod capacity m = 0).
Proof.
  intros Hcap Hcr m.
  destruct (num_created cap esz old m0 Hcap Hcr) as [Hn0 _].
  pose proof (num_append_all ins m0 Hn0) as Hn. fold m in Hn.
  destruct Hn as [Hc Htail Hcount Hhead].
  assert (Hmod : (head m - tail m) mod capacity m = count m mod capacity m).
  { rewrite Hhead.
    destruct (Z.lt_ge_cases (count m) (capacity m)) as [Hl | Hg].
    - rewrite (Z.mod_small (count m)) by lia.
      rewrite (mod_once (capacity m) (tail m + count m)) by lia.
      destruct (Z.ltb_spec (tail m + count m) (capacity m)).
      + replace (tail m + count m - tail m) with (count m) by lia.
        apply Z.mod_small. lia.
      + replace (tail m + count m - capacity m - tail m)
          with (count m + (-1) * capacity m) by lia.
        rewrite Z.mod_add by lia. apply Z.mod_small. lia.
    - replace (count m) with (capacity m) by lia.
      rewrite (mod_once (capacity m) (tail m + capacity m)) by lia.
      destruct (Z.ltb_spec (tail m + capacity m) (capacity m)); [lia |].
      replace (tail m + capacity m - capacity m - tail m) with 0 by lia.
      rewrite Z.mod_same by lia. apply Z.mod_0_l. lia. }
  split; [now rewrite Hmod |]. split.
  - intros Hl. rewrite Hmod. symmetry. apply Z.mod_small. lia.
  - intros He. rewrite Hmod, He, Z.mod_same by lia. split; [| reflexivity].
    rewrite Hhead, He. unfold_mods; lia.
Qed.

Lemma count_formula_witness :
  let m := append_all (initial_monitor 3 96 [])
             [say 65 1; say 66 1; say 67 1; say 68 1; say 69 1] in
  0 < 3 < SIZE_MOD /\ created 3 96 [] (initial_monitor 3 96 [])
  /\ count m = 3 /\ head m = 2 /\ tail m = 2
  /\ count m mod capacity m = (head m - tail m) mod capacity m.
Proof.
  intros m.
  assert (H : 0 < 3 < SIZE_MOD) by (unfold SIZE_MOD; lia).
  split; [exact H |]. split; [reflexivity |].
  split; [reflexivity |]. split; [reflexivity |]. split; [reflexivity |].
  exact (proj1 (count_formula 3 96 [] (initial_monitor 3 96 [])
                  [say 65 1; say 66 1; say 67 1; say 68 1; say 69 1]
                  H eq_refl)).
Defined.

(** C4, as the claim states it, fails once the sequence counter has
    wrapped: after [2^64] appends to a store of capacity 2 the two live
    entries carry the sequence numbers [2^64 - 1] and [0], and the
    snapshot returns them in that order.  It fails as well where the byte
    size of the array wraps: with entries of 96 bytes [rwlog_create]
    returns 0 for a capacity that leaves the array without a single
    slot, and after two appends the snapshot of 2 copies from slots
    outside it, not two entries in increasing sequence order. *)
Lemma snapshot_order_wraps :
  (let m0 := initial_monitor 2 96 [] in
   let m := append_all m0 (flood SIZE_MOD) in
   created 2 96 [] m0
   /\ exists out,
        rwlog_snapshot (Some m) (Some [zero_entry; zero_entry]) 2
          = (2, Some out, Some m)
        /\ seq <$> out = [SIZE_MOD - 1; 0]
        /\ ~ increasing (seq <$> out))
  /\ (let w0 := initial_monitor wrapping_capacity 96 [] in
      let w := append_all w0 [say 65 1; say 66 1] in
      created wrapping_capacity 96 [] w0
      /\ length (entries w) = 0%nat
      /\ count w = 2
      /\ exists out,
           rwlog_snapshot (Some w) (Some [zero_entry; zero_entry]) 2
             = (2, Some out, Some w)
           /\ ~ increasing (seq <$> out)).
Proof.
  split.
  - intros m0 m. split; [reflexivity |].
    assert (Hf : fits 2 96) by (unfold fits, SIZE_MOD; lia).
    destruct (store_after_appends 2 96 [] m0 (flood SIZE_MOD) Hf eq_refl)
      as (Hwf & Hc & Hcnt & _ & Hseq).
    fold m in Hwf, Hc, Hcnt, Hseq.
    rewrite flood_length in Hcnt, Hseq by (unfold SIZE_MOD; lia).
    assert (Hcnt2 : count m = 2) by (rewrite Hcnt; reflexivity).
    rewrite Hcnt2 in Hseq.
    pose proof (rwlog_snapshot_spec m [zero_entry; zero_entry] 2 Hwf) as Hs.
    rewrite Hcnt2 in Hs.
    exists (take 2 (live m) ++ []). split.
    + apply Hs; [rewrite Hc; unfold PTRDIFF_MAX; lia
                 | unfold SIZE_MOD; lia | cbn; lia].
    + assert (Ho : seq <$> take 2 (live m) ++ [] = [SIZE_MOD - 1; 0]).
      { rewrite app_nil_r, fmap_take, Hseq. reflexivity. }
      rewrite Ho. split; [reflexivity |].
      cbn. intros [H _]. revert H. unfold SIZE_MOD. lia.
  - intros w0 w. split; [reflexivity |]. split; [reflexivity |].
    split; [reflexivity |].
    exists [zero_entry; zero_entry]. split; [vm_compute; reflexivity |].
    cbn. intros [H _]. lia.
Qed.

(** C4, amended. [rwlog_snapshot] leaves the monitor as it is.  For every
    store reached by appends from a store created with an array whose
    byte size does not wrap, every [max_entries] and a buffer with room
    for the result: [rwlog_snapshot] returns [min count max_entries] and
    the first that many slots of the buffer hold the entries from [tail]
    on, oldest first (the rest of the buffer is as it was).  The copied
    entries carry consecutive sequence numbers modulo [2^64]; these are
    in increasing order as long as fewer than [2^64] entries have been
    appended.  With five live entries of sequence numbers 10..14, a
    snapshot of 2 returns those of 10 and 11. *)
Theorem snapshot_semantics cap esz old m0 ins buf max :
  created cap esz old m0 ->
  let m := append_all m0 ins in
  let n := Z.min (count m) max in
  let copied := take (Z.to_nat n) (live m) in
  (rwlog_snapshot (Some m) (Some buf) max).2 = Some m
  /\ (fits cap esz ->
      0 <= max < SIZE_MOD ->
      (Z.to_nat n <= length buf)%nat ->
      rwlog_snapshot (Some m) (Some buf) max
        = (n, Some (copied ++ drop (Z.to_nat n) buf), Some m)
      /\ length copied = Z.to_nat n
      /\ (forall i, (i < Z.to_nat n)%nat ->
            copied !! i
            = Some (entry_at (entries m)
                      (buffer_index (tail m + Z.of_nat i) (capacity m))))
      /\ seq <$> copied
         = (λ i, wrap64 (1 + Z.of_nat (length ins) - count m + i))
             <$> seqZ 0 n
      /\ (Z.of_nat (length ins) < SIZE_MOD -> increasing (seq <$> copied))
      /\ (cap = 5 -> length ins = 14%nat -> max = 2 ->
          seq <$> copied = [10; 11])).
Proof.
  intros Hcr m n copied.
  split.
  { unfold rwlog_snapshot. destruct (max =? 0); reflexivity. }
  intros Hf Hmax Hbuf.
  destruct (fits_range cap esz Hf) as [Hcap _].
  destruct (store_after_appends cap esz old m0 ins Hf Hcr)
    as (Hwf & Hc & Hcnt & _ & Hseq).
  fold m in Hwf, Hc, Hcnt, Hseq.
  pose proof Hwf as [_ _ _ Hcount _].
  assert (Hn : 0 <= n <= count m) by lia.
  assert (Hcs : seq <$> copied
     = (λ i, wrap64 (1 + Z.of_nat (length ins) - count m + i))
         <$> seqZ 0 n).
  { subst copied. rewrite fmap_take, Hseq. now apply take_fmap_seqZ. }
  split; [apply rwlog_snapshot_spec; try assumption; lia |].
  split; [subst copied; rewrite length_take, live_length; lia |].
  split; [| split; [exact Hcs | split]].
  - intros i Hi. subst copied. rewrite lookup_take_lt by exact Hi.
    rewrite live_lookup.
    destruct (Z.ltb_spec (Z.of_nat i) (count m)); [reflexivity | lia].
  - intros Hlen. subst copied. rewrite fmap_take, Hseq.
    apply increasing_run; lia.
  - intros -> Hlen ->. rewrite Hcs. subst n. rewrite Hcnt, Hlen.
    reflexivity.
Qed.

Lemma snapshot_semantics_witness :
  let m0 := initial_monitor 3 96 [] in
  let ins := [say 65 1; say 66 1; say 67 1; say 68 1] in
  let buf := [zero_entry; zero_entry] in
  created 3 96 [] m0 /\ fits 3 96 /\ 0 <= 2 < SIZE_MOD
  /\ (Z.to_nat (Z.min (count (append_all m0 ins)) 2) <= length buf)%nat
  /\ rwlog_snapshot (Some (append_all m0 ins)) (Some buf) 2
     = (2, Some (take 2 (live (append_all m0 ins)) ++ []),
        Some (append_all m0 ins))
  /\ msg <$> take 2 (live (append_all m0 ins)) = [[66]; [67]].
Proof.
  intros m0 ins buf.
  assert (H1 : fits 3 96) by (unfold fits, SIZE_MOD; lia).
  assert (H2 : 0 <= 2 < SIZE_MOD) by (unfold SIZE_MOD; lia).
  assert (H3 : (Z.to_nat (Z.min (count (append_all m0 ins)) 2)
                <= length buf)%nat) by (vm_compute; lia).
  split; [reflexivity |]. split; [exact H1 |]. split; [exact H2 |].
  split; [exact H3 |]. split; [| reflexivity].
  exact (proj1 (proj2 (snapshot_semantics 3 96 [] m0 ins buf 2 eq_refl)
                  H1 H2 H3)).
Defined.

(** C5, as the claim states it, fails when the 64-bit counter wraps: of
    [2^64] appends to a fresh store, the one before last is stored under
    sequence number [2^64 - 1] and the last, appended after it, under
    0.  (And the entries are stored only where the array is: with
    entries of 96 bytes and a capacity whose byte size wraps,
    [rwlog_create] returns 0 with an array without a single slot, and
    what is read back from the slots of two appends is not two entries
    of increasing sequence numbers.) *)
Lemma sequence_wraps :
  (let m0 := initial_monitor 1 96 [] in
   let stored := append_trace m0 (flood SIZE_MOD) in
   let i := Z.to_nat (SIZE_MOD - 2) in
   let j := Z.to_nat (SIZE_MOD - 1) in
   created 1 96 [] m0
   /\ (i < j)%nat
   /\ exists a b,
        stored !! i = Some a /\ stored !! j = Some b
        /\ seq a = SIZE_MOD - 1 /\ seq b = 0
        /\ ~ seq a < seq b)
  /\ (let w0 := initial_monitor wrapping_capacity 96 [] in
      let stored := append_trace w0 [say 65 1; say 66 1] in
      created wrapping_capacity 96 [] w0
      /\ length (entries w0) = 0%nat
      /\ exists a b,
           stored !! 0%nat = Some a /\ stored !! 1%nat = Some b
           /\ ~ seq a < seq b).
Proof.
  split.
  - intros m0 stored i j. split; [reflexivity |].
    assert (H64 : SIZE_MOD = 18446744073709551616) by reflexivity.
    split; [subst i j; lia |].
    assert (Hf : fits 1 96) by (unfold fits; lia).
    destruct (wf_created 1 96 [] m0 Hf eq_refl)
      as (Hwf0 & _ & _ & _ & _ & Hs0 & _).
    assert (Hlen : length stored = Z.to_nat SIZE_MOD).
    { subst stored. rewrite append_trace_length. unfold flood.
      apply length_replicate. }
    destruct (lookup_lt_is_Some_2 stored i) as [a Ha]; [subst i; lia |].
    destruct (lookup_lt_is_Some_2 stored j) as [b Hb]; [subst j; lia |].
    exists a, b. split; [exact Ha |]. split; [exact Hb |].
    destruct (append_trace_lookup _ m0 1 i a Hwf0 Hs0 Ha)
      as (_ & _ & Hsa & _).
    destruct (append_trace_lookup _ m0 1 j b Hwf0 Hs0 Hb)
      as (_ & _ & Hsb & _).
    assert (Ea : seq a = SIZE_MOD - 1).
    { rewrite Hsa. subst i. rewrite Z2Nat.id by lia.
      replace (1 + (SIZE_MOD - 2)) with (SIZE_MOD - 1) by lia.
      apply wrap64_small. lia. }
    assert (Eb : seq b = 0).
    { rewrite Hsb. subst j. rewrite Z2Nat.id by lia.
      replace (1 + (SIZE_MOD - 1)) with SIZE_MOD by lia.
      unfold wrap64. apply Z.mod_same. lia. }
    split; [exact Ea |]. split; [exact Eb |]. rewrite Ea, Eb. lia.
  - intros w0 stored. split; [reflexivity |]. split; [reflexivity |].
    exists zero_entry, zero_entry.
    split; [reflexivity |]. split; [reflexivity |]. cbn. lia.
Qed.

(** C5, amended. The sequence counter is 1 at creation; the [i]-th append
    (from 0) finds it at [(i + 1) mod 2^64] and advances it by one modulo
    [2^64], so that it grows from append to append as long as fewer than
    [2^64] entries have been appended.  Where the byte size of the array
    does not wrap, each append stores its entry under the value it found
    in the counter; then, as long as fewer than [2^64] entries have been
    appended, an entry appended before another has the smaller sequence
    number, and the sequence numbers of every snapshot result, taken into
    a buffer with room for it, are strictly increasing by index. *)
Theorem sequence_monotone cap esz old m0 ins :
  created cap esz old m0 ->
  let m := append_all m0 ins in
  let stored := append_trace m0 ins in
  let counter := λ i : nat, next_seq (append_all m0 (take i ins)) in
  next_seq m0 = 1
  /\ (forall i, (i < length ins)%nat ->
        counter i = wrap64 (Z.of_nat i + 1)
        /\ counter (S i) = wrap64 (counter i + 1))
  /\ (Z.of_nat (length ins) < SIZE_MOD ->
      forall i j, (i < j)%nat -> (j < length ins)%nat ->
        counter i < counter j)
  /\ (fits cap esz ->
      (forall i x, stored !! i = Some x -> seq x = counter i)
      /\ (Z.of_nat (length ins) < SIZE_MOD ->
          (forall i j a b, (i < j)%nat ->
             stored !! i = Some a -> stored !! j = Some b -> seq a < seq b)
          /\ (forall buf max,
                0 <= max < SIZE_MOD ->
                (Z.to_nat (Z.min (count m) max) <= length buf)%nat ->
                exists out,
                  rwlog_snapshot (Some m) (Some buf) max
                    = (Z.min (count m) max, Some out, Some m)
                  /\ increasing
                       (seq <$> take (Z.to_nat (Z.min (count m) max))
                                  out)))).
Proof.
  intros Hcr m stored counter.
  assert (Hs0 : next_seq m0 = 1).
  { unfold created, rwlog_create in Hcr. destruct (cap =? 0); [discriminate |].
    injection Hcr as <-. reflexivity. }
  assert (Hctr : forall i, (i <= length ins)%nat ->
            counter i = wrap64 (Z.of_nat i + 1)).
  { intros i Hi. subst counter. cbv beta.
    rewrite (next_seq_append_all (take i ins) m0 1 Hs0), length_take.
    f_equal. lia. }
  split; [exact Hs0 |]. split; [| split].
  - intros i Hi. rewrite (Hctr (S i)), (Hctr i) by lia.
    split; [reflexivity |]. rewrite wrap64_succ. f_equal. lia.
  - intros Hlen i j Hij Hj. rewrite (Hctr i), (Hctr j) by lia.
    rewrite !wrap64_small by lia. lia.
  - intros Hf.
    destruct (wf_created cap esz old m0 Hf Hcr) as [Hwf0 _].
    assert (Hidx : forall i x, stored !! i = Some x ->
              seq x = wrap64 (Z.of_nat i + 1) /\ (i < length ins)%nat).
    { intros i x Hx.
      pose proof (lookup_lt_Some _ _ _ Hx) as Hi.
      subst stored. rewrite append_trace_length in Hi.
      destruct (append_trace_lookup _ m0 1 i x Hwf0 Hs0 Hx)
        as (_ & _ & Hsx & _).
      rewrite Hsx. split; [f_equal; lia | exact Hi]. }
    split.
    + intros i x Hx. destruct (Hidx i x Hx) as [-> Hi].
      symmetry. apply Hctr. lia.
    + intros Hlen. split.
      * intros i j a b Hij Ha Hb.
        destruct (Hidx i a Ha) as [-> _]. destruct (Hidx j b Hb) as [-> Hj].
        rewrite !wrap64_small by lia. lia.
      * intros buf max Hmax Hbuf.
        destruct (fits_range cap esz Hf) as [Hcap _].
        destruct (store_after_appends cap esz old m0 ins Hf Hcr)
          as (Hwf & Hc & Hcnt & _ & Hseq).
        fold m in Hwf, Hc, Hcnt, Hseq.
        pose proof Hwf as [_ _ _ Hcount _].
        eexists. split.
        -- apply rwlog_snapshot_spec; try assumption. lia.
        -- rewrite take_app_le by (rewrite length_take, live_length; lia).
           rewrite take_take, Nat.min_id, fmap_take, Hseq.
           apply increasing_run; lia.
Qed.

Lemma sequence_monotone_witness :
  let m0 := initial_monitor 3 96 [] in
  let ins := [say 65 1; say 66 2; say 67 1; say 68 2] in
  created 3 96 [] m0 /\ fits 3 96
  /\ Z.of_nat (length ins) < SIZE_MOD
  /\ seq <$> append_trace m0 ins = [1; 2; 3; 4]
  /\ (forall i j a b, (i < j)%nat ->
        append_trace m0 ins !! i = Some a ->
        append_trace m0 ins !! j = Some b -> seq a < seq b).
Proof.
  intros m0 ins.
  assert (H1 : fits 3 96) by (unfold fits, SIZE_MOD; lia).
  assert (H2 : Z.of_nat (length ins) < SIZE_MOD) by (vm_compute; reflexivity).
  split; [reflexivity |]. split; [exact H1 |]. split; [exact H2 |].
  split; [reflexivity |].
  exact (proj1 (proj2 (proj2 (proj2 (proj2
           (sequence_monotone 3 96 [] m0 ins eq_refl))) H1) H2)).
Defined.

(** * Further properties of the monitor and its driver *)

(** ** The log holds the latest entries *)

Lemma append_trace_head m a :
  ring_wf m -> entry_at (entries (append_step m a)) (head m) = stamped m a.
Proof.
  intros Hwf. pose proof (head_in_range m Hwf) as Hin.
  rewrite (append_entries m a Hin).
  destruct Hwf as [Hcap Hlen Htail Hcount Hhead].
  assert (0 <= head m) by (rewrite Hhead; apply Z.mod_pos_bound; lia).
  now rewrite entry_at_insert, Z.eqb_refl by lia.
Qed.

(** The live entries after some appends are the end of what was live
    before followed by the stored copies. *)
Lemma live_history ins : forall m,
  ring_wf m ->
  live (append_all m ins)
  = drop (Z.to_nat (count m + Z.of_nat (length ins) - capacity m))
      (live m ++ append_trace m ins).
Proof.
  induction ins as [| a ins IH]; intros m Hwf.
  - pose proof Hwf as [_ _ _ Hcount _].
    cbn [append_all fold_left append_trace length].
    replace (Z.to_nat (count m + Z.of_nat 0 - capacity m)) with 0%nat by lia.
    now rewrite app_nil_r.
  - change (append_all m (a :: ins)) with (append_all (append_step m a) ins).
    rewrite (IH _ (wf_append m a Hwf)).
    pose proof (append_fields m a Hwf) as (Hc & _ & _ & Hlt & Hfull & _).
    cbn [append_trace length].
    rewrite (append_trace_head m a Hwf), (live_append m a Hwf), Hc.
    pose proof (live_length m) as Hll.
    pose proof Hwf as [Hcap _ _ Hcount _].
    destruct (Z.ltb_spec (count m) (capacity m)) as [Hl | Hg].
    + destruct (Hlt Hl) as [-> _]. rewrite <- app_assoc. cbn [app].
      f_equal. lia.
    + destruct (Hfull ltac:(lia)) as [-> _]. rewrite <- app_assoc.
      cbn [app].
      replace (Z.to_nat (count m + Z.of_nat (S (length ins)) - capacity m))
        with (S (length ins)) by lia.
      replace (Z.to_nat (capacity m + Z.of_nat (length ins) - capacity m))
        with (length ins) by lia.
      destruct (live m) as [| x l] eqn:Hlive; [cbn in Hll; lia |].
      reflexivity.
Qed.

(** X1. Where the byte size of the array does not wrap, a snapshot with
    room for the whole log returns exactly the last [min n capacity] of
    the [n] entries appended since creation, in the order of their
    appends; each is the caller's message stamped with the calling
    thread, the clock reading and the sequence number of its append. *)
Theorem snapshot_returns_latest cap esz old m0 ins buf max :
  fits cap esz ->
  created cap esz old m0 ->
  cap <= max < SIZE_MOD ->
  (Z.to_nat cap <= length buf)%nat ->
  let m := append_all m0 ins in
  let n := Z.of_nat (length ins) in
  let latest := drop (Z.to_nat (n - cap)) (append_trace m0 ins) in
  rwlog_snapshot (Some m) (Some buf) max
    = (Z.min n cap, Some (latest ++ drop (length latest) buf), Some m)
  /\ length latest = Z.to_nat (Z.min n cap)
  /\ (forall k x, latest !! k = Some x ->
        exists a, ins !! (Z.to_nat (n - cap) + k)%nat = Some a
          /\ msg x = msg a.1.1 /\ tid x = a.1.2 /\ ts x = a.2
          /\ seq x = wrap64 (1 + Z.max 0 (n - cap) + Z.of_nat k)).
Proof.
  intros Hf Hcr Hmax Hbuf m n latest.
  destruct (fits_range cap esz Hf) as [Hcap _].
  destruct (wf_created cap esz old m0 Hf Hcr)
    as (Hwf0 & Hc0 & Hn0 & _ & _ & Hs0 & _).
  destruct (store_after_appends cap esz old m0 ins Hf Hcr)
    as (Hwf & Hc & Hcnt & _ & _).
  fold m in Hwf, Hc, Hcnt. fold n in Hcnt.
  assert (Hlive : live m = latest).
  { subst m latest. rewrite (live_history ins m0 Hwf0), Hn0, Hc0.
    unfold live at 1. rewrite Hn0. reflexivity. }
  assert (Hlen : length latest = Z.to_nat (Z.min n cap)).
  { rewrite <- Hlive, live_length, Hcnt. reflexivity. }
  split; [| split; [exact Hlen |]].
  - rewrite (rwlog_snapshot_spec m buf max Hwf) by lia.
    replace (Z.min (count m) max) with (Z.min n cap) by lia.
    rewrite Hlive, <- Hlen, take_ge by lia. reflexivity.
  - intros k x Hx. subst latest. rewrite lookup_drop in Hx.
    destruct (append_trace_lookup ins m0 1 _ x Hwf0 Hs0 Hx)
      as (a & Ha & Hseq & Htid & Hts & Hmsg).
    exists a. repeat split; try assumption.
    rewrite Hseq. f_equal. lia.
Qed.

Lemma snapshot_returns_latest_witness :
  let m0 := initial_monitor 2 96 [] in
  let ins := [say 65 1; say 66 2; say 67 3] in
  let buf := [zero_entry; zero_entry; zero_entry] in
  fits 2 96 /\ created 2 96 [] m0 /\ 2 <= 3 < SIZE_MOD
  /\ (Z.to_nat 2 <= length buf)%nat
  /\ (rwlog_snapshot (Some (append_all m0 ins)) (Some buf) 3).1.1 = 2
  /\ (msg <$> drop 1 (append_trace m0 ins)) = [[66]; [67]].
Proof.
  intros m0 ins buf.
  assert (H1 : fits 2 96) by (unfold fits, SIZE_MOD; lia).
  assert (H2 : 2 <= 3 < SIZE_MOD) by (unfold SIZE_MOD; lia).
  assert (H3 : (Z.to_nat 2 <= length buf)%nat) by (cbn; lia).
  split; [exact H1 |]. split; [reflexivity |]. split; [exact H2 |].
  split; [exact H3 |]. split; [| reflexivity].
  pose proof (proj1 (snapshot_returns_latest 2 96 [] m0 ins buf 3
                       H1 eq_refl H2 H3)) as H.
  cbv zeta in H. rewrite H. reflexivity.
Defined.

(** ** Steps of the threads *)

(** Splits a successful [exec] into its six cases. *)
Ltac exec_cases He Ht :=
  unfold exec in He;
  match type of He with
  | context [threads ?s !! ?t] =>
      destruct (threads s !! t) as [[] |] eqn:Ht
  end;
  match type of He with
  | context [match ?o with BeginRead => _ | _ => _ end] => destruct o
  | _ => idtac
  end;
  try discriminate; injection He as <-.

Ltac unfold_sync :=
  unfold settle, begin_read_wake, begin_read_loop, begin_write_entry,
    begin_write_wake, begin_write_loop, end_read_locked, end_write_locked.

Lemma exec_log s t o s' :
  exec s t o = Some s' -> log_of (mon s') = log_of (mon s).
Proof.
  intros He. exec_cases He Ht; unfold_sync;
    repeat match goal with
      | |- context [if ?c then _ else _] => destruct c
      end; reflexivity.
Qed.

Lemma exec_length s t o s' :
  exec s t o = Some s' -> length (threads s') = length (threads s).
Proof.
  intros He. exec_cases He Ht; unfold_sync;
    repeat match goal with
      | |- context [if ?c then _ else _] => destruct c
      end; cbn [threads]; apply length_insert.
Qed.

Lemma exec_other s t o s' t' :
  exec s t o = Some s' -> t' <> t -> threads s' !! t' = threads s !! t'.
Proof.
  intros He Hne. exec_cases He Ht; unfold_sync;
    repeat match goal with
      | |- context [if ?c then _ else _] => destruct c
      end; cbn [threads]; apply list_lookup_insert_ne; congruence.
Qed.

Lemma exec_reading s t o s' :
  exec s t o = Some s' -> threads s !! t = Some Reading -> o = EndRead.
Proof.
  intros He Hr. unfold exec in He. rewrite Hr in He.
  destruct o; try discriminate. reflexivity.
Qed.

Lemma exec_writing s t o s' :
  exec s t o = Some s' -> threads s !! t = Some Writing -> o = EndWrite.
Proof.
  intros He Hr. unfold exec in He. rewrite Hr in He.
  destruct o; try discriminate. reflexivity.
Qed.

Lemma append_locked_sync m e self now :
  let m' := append_locked m e self now in
  readers_active m' = readers_active m
  /\ readers_waiting m' = readers_waiting m
  /\ writers_waiting m' = writers_waiting m
  /\ writer_active m' = writer_active m.
Proof.
  unfold append_locked. destruct (count m <? capacity m); cbn; auto.
Qed.

Lemma append_locked_log m1 m2 e self now :
  log_of m1 = log_of m2 ->
  log_of (append_locked m1 e self now) = log_of (append_locked m2 e self now).
Proof.
  unfold log_of. intros H. injection H as He Hc Hh Ht Hn Hs.
  unfold append_locked. rewrite He, Hc, Hh, Ht, Hn, Hs.
  destruct (count m2 <? capacity m2); reflexivity.
Qed.

Lemma append_all_log ins : forall m1 m2,
  log_of m1 = log_of m2 ->
  log_of (append_all m1 ins) = log_of (append_all m2 ins).
Proof.
  induction ins as [| a ins IH]; intros m1 m2 H; [exact H |].
  apply IH. now apply append_locked_log.
Qed.

Lemma xexec_inv s t x s' :
  sync_inv s -> xexec s t x = Some s' -> sync_inv s'.
Proof.
  intros Hinv He. destruct x as [o | e now]; [now apply (exec_inv s t o) |].
  cbn in He. destruct (threads s !! t) as [[] |]; try discriminate.
  injection He as <-.
  destruct (append_locked_sync (mon s) e (thread_id t) now)
    as (H1 & H2 & H3 & H4).
  destruct Hinv as [Hra Hrw Hww Hwa Hone Hexcl].
  constructor; cbn [mon threads]; rewrite ?H1, ?H2, ?H3, ?H4; assumption.
Qed.

Lemma xrun_inv tr : forall s s',
  sync_inv s -> xrun s tr = Some s' -> sync_inv s'.
Proof.
  induction tr as [| [t x] tr IH]; intros s s' Hinv Hrun.
  - injection Hrun as <-. exact Hinv.
  - cbn [xrun] in Hrun. destruct (xexec s t x) as [s1 |] eqn:He;
      [| discriminate].
    exact (IH s1 s' (xexec_inv s t x s1 Hinv He) Hrun).
Qed.

Lemma xexec_wf s t x s' :
  ring_wf (mon s) -> xexec s t x = Some s' -> ring_wf (mon s').
Proof.
  intros Hwf He. destruct x as [o | e now].
  - pose proof (exec_log s t o s' He) as Hl. unfold log_of in Hl.
    injection Hl as H1 H2 H3 H4 H5 H6. destruct Hwf.
    constructor; rewrite ?H1, ?H2, ?H3, ?H4, ?H5; assumption.
  - cbn in He. destruct (threads s !! t) as [[] |]; try discriminate.
    injection He as <-. apply (wf_append (mon s) (e, thread_id t, now) Hwf).
Qed.

Lemma xexec_length s t x s' :
  xexec s t x = Some s' -> length (threads s') = length (threads s).
Proof.
  intros He. destruct x as [o | e now]; [now apply (exec_length s t o) |].
  cbn in He. destruct (threads s !! t) as [[] |]; try discriminate.
  now injection He as <-.
Qed.

(** A reader inside excludes every writer, and the other way round. *)
Lemma reading_excludes_writing s t t' :
  sync_inv s -> threads s !! t = Some Reading ->
  threads s !! t' = Some Writing -> False.
Proof.
  intros [Hra Hrw Hww Hwa Hone Hexcl] Hr Hw.
  pose proof (population_lookup _ _ _ Hr).
  pose proof (population_lookup _ _ _ Hw). lia.
Qed.

Lemma one_writer s t t' :
  sync_inv s -> threads s !! t = Some Writing ->
  threads s !! t' = Some Writing -> t' = t.
Proof.
  intros [Hra Hrw Hww Hwa Hone Hexcl] Hr Hw.
  destruct (decide (t' = t)) as [| Hne]; [assumption |].
  pose proof (population_two Writing _ t' t ltac:(discriminate) Hne Hw Hr).
  lia.
Qed.

Lemma snapshot_copy_log m1 m2 start n : forall i buf,
  entries m1 = entries m2 -> capacity m1 = capacity m2 ->
  snapshot_copy m1 start n i buf = snapshot_copy m2 start n i buf.
Proof.
  induction n as [| n IH]; intros i buf He Hc; [reflexivity |].
  cbn [snapshot_copy]. rewrite He, Hc. now apply IH.
Qed.

Lemma snapshot_log m1 m2 buf max :
  log_of m1 = log_of m2 ->
  (rwlog_snapshot (Some m1) buf max).1 = (rwlog_snapshot (Some m2) buf max).1.
Proof.
  unfold log_of. intros H. injection H as He Hc Hh Ht Hn Hs.
  unfold rwlog_snapshot. destruct buf as [b |]; [| reflexivity].
  destruct (max =? 0); [reflexivity |]. rewrite Hn, Ht.
  rewrite (snapshot_copy_log m1 m2) by assumption. reflexivity.
Qed.

(** ** Readers and writers in their sections *)

Lemma reader_section tr : forall s s' t,
  sync_inv s ->
  threads s !! t = Some Reading ->
  xrun s tr = Some s' ->
  (t, Sync EndRead) ∉ tr ->
  threads s' !! t = Some Reading
  /\ log_of (mon s') = log_of (mon s)
  /\ appends_in tr = [].
Proof.
  induction tr as [| [t' x] tr IH]; intros s s' t Hinv Hr Hrun Hno.
  - injection Hrun as <-. auto.
  - cbn [xrun] in Hrun. destruct (xexec s t' x) as [s1 |] eqn:He;
      [| discriminate].
    apply not_elem_of_cons in Hno as [Hne Hno].
    pose proof (xexec_inv s t' x s1 Hinv He) as Hinv1.
    destruct x as [o | e now].
    + cbn in He.
      assert (Hr1 : threads s1 !! t = Some Reading).
      { destruct (decide (t = t')) as [-> | Hd].
        - pose proof (exec_reading s t' o s1 He Hr). congruence.
        - now rewrite (exec_other s t' o s1 t He Hd). }
      destruct (IH s1 s' t Hinv1 Hr1 Hrun Hno) as (H1 & H2 & H3).
      split; [exact H1 |]. split; [| exact H3].
      rewrite H2. apply (exec_log s t' o s1 He).
    + exfalso. cbn in He.
      destruct (threads s !! t') as [[] |] eqn:Hw; try discriminate.
      exact (reading_excludes_writing s t t' Hinv Hr Hw).
Qed.

(** X2. A reader's section is isolated: from any reachable state in which
    thread [t] is between [rwlog_begin_read] and [rwlog_end_read], however
    the other threads go on, until [t] calls [rwlog_end_read] nothing is
    appended, the log (entries, head, tail, count, sequence counter) stays
    as it is, and every snapshot returns the same count and entries. *)
Theorem reader_isolation cap esz old m0 n tr1 s t tr2 s' :
  created cap esz old m0 ->
  xrun (init_system m0 n) tr1 = Some s ->
  threads s !! t = Some Reading ->
  xrun s tr2 = Some s' ->
  (t, Sync EndRead) ∉ tr2 ->
  threads s' !! t = Some Reading
  /\ appends_in tr2 = []
  /\ log_of (mon s') = log_of (mon s)
  /\ (forall buf max,
        (rwlog_snapshot (Some (mon s')) buf max).1
        = (rwlog_snapshot (Some (mon s)) buf max).1).
Proof.
  intros Hcr Hrun1 Hr Hrun2 Hno.
  pose proof (xrun_inv tr1 _ _ (sync_inv_init cap esz old m0 n Hcr) Hrun1)
    as Hinv.
  destruct (reader_section tr2 s s' t Hinv Hr Hrun2 Hno) as (H1 & H2 & H3).
  repeat split; try assumption.
  intros buf max. now apply snapshot_log.
Qed.

Lemma reader_isolation_witness :
  let m0 := initial_monitor 3 96 [] in
  let tr1 := [(1%nat, Sync BeginWrite); (1%nat, Append (say 65 1).1.1 t0);
              (1%nat, Sync EndWrite); (0%nat, Sync BeginRead)] in
  let tr2 := [(1%nat, Sync BeginWrite); (2%nat, Sync BeginRead)] in
  exists s s',
    created 3 96 [] m0
    /\ xrun (init_system m0 3) tr1 = Some s
    /\ threads s !! 0%nat = Some Reading
    /\ xrun s tr2 = Some s'
    /\ ((0%nat, Sync EndRead) ∉ tr2)
    /\ threads s' = [Reading; WaitWrite; WaitRead]
    /\ log_of (mon s') = log_of (mon s).
Proof.
  intros m0 tr1 tr2. eexists. eexists.
  split; [reflexivity |]. split; [vm_compute; reflexivity |].
  split; [reflexivity |]. split; [vm_compute; reflexivity |].
  assert (Hno : (0%nat, Sync EndRead) ∉ tr2).
  { subst tr2. intros H. repeat (apply elem_of_cons in H as [H | H];
      [discriminate |]). now apply elem_of_nil in H. }
  split; [exact Hno |]. split; [reflexivity |].
  refine (proj1 (proj2 (proj2
    (reader_isolation 3 96 [] m0 3 tr1 _ 0%nat tr2 _ eq_refl _ _ _ Hno))));
    reflexivity.
Defined.

Lemma writer_section tr : forall s s' t,
  sync_inv s ->
  threads s !! t = Some Writing ->
  xrun s tr = Some s' ->
  (t, Sync EndWrite) ∉ tr ->
  threads s' !! t = Some Writing
  /\ log_of (mon s') = log_of (append_all (mon s) (appends_in tr))
  /\ Forall (λ t', t' = t) (appenders tr).
Proof.
  induction tr as [| [t' x] tr IH]; intros s s' t Hinv Hw Hrun Hno.
  - injection Hrun as <-. cbn. auto.
  - cbn [xrun] in Hrun. destruct (xexec s t' x) as [s1 |] eqn:He;
      [| discriminate].
    apply not_elem_of_cons in Hno as [Hne Hno].
    pose proof (xexec_inv s t' x s1 Hinv He) as Hinv1.
    destruct x as [o | e now].
    + cbn in He.
      assert (Hw1 : threads s1 !! t = Some Writing).
      { destruct (decide (t = t')) as [-> | Hd].
        - pose proof (exec_writing s t' o s1 He Hw). congruence.
        - now rewrite (exec_other s t' o s1 t He Hd). }
      destruct (IH s1 s' t Hinv1 Hw1 Hrun Hno) as (H1 & H2 & H3).
      split; [exact H1 |]. split; [| exact H3].
      cbn [appends_in]. rewrite H2. apply append_all_log.
      apply (exec_log s t' o s1 He).
    + cbn in He.
      destruct (threads s !! t') as [[] |] eqn:Hw'; try discriminate.
      injection He as <-.
      pose proof (one_writer s t t' Hinv Hw Hw') as ->.
      destruct (IH _ s' t Hinv1 Hw Hrun Hno) as (H1 & H2 & H3).
      split; [exact H1 |]. split; [exact H2 |].
      cbn [appenders]. now constructor.
Qed.

(** X3. A writer's section is exclusive: from any reachable state in
    which thread [t] is between [rwlog_begin_write] and
    [rwlog_end_write], until [t] calls [rwlog_end_write] every append is
    one of [t], and the log is the log at the start with exactly the
    appends of the trace applied in order. *)
Theorem writer_exclusive cap esz old m0 n tr1 s t tr2 s' :
  created cap esz old m0 ->
  xrun (init_system m0 n) tr1 = Some s ->
  threads s !! t = Some Writing ->
  xrun s tr2 = Some s' ->
  (t, Sync EndWrite) ∉ tr2 ->
  threads s' !! t = Some Writing
  /\ Forall (λ t', t' = t) (appenders tr2)
  /\ log_of (mon s') = log_of (append_all (mon s) (appends_in tr2)).
Proof.
  intros Hcr Hrun1 Hw Hrun2 Hno.
  pose proof (xrun_inv tr1 _ _ (sync_inv_init cap esz old m0 n Hcr) Hrun1)
    as Hinv.
  destruct (writer_section tr2 s s' t Hinv Hw Hrun2 Hno) as (H1 & H2 & H3).
  auto.
Qed.

Lemma writer_exclusive_witness :
  let m0 := initial_monitor 3 96 [] in
  let tr1 := [(1%nat, Sync BeginWrite)] in
  let tr2 := [(1%nat, Append (say 65 1).1.1 t0); (0%nat, Sync BeginRead);
              (2%nat, Sync BeginWrite); (1%nat, Append (say 66 1).1.1 t0)] in
  exists s s',
    created 3 96 [] m0
    /\ xrun (init_system m0 3) tr1 = Some s
    /\ threads s !! 1%nat = Some Writing
    /\ xrun s tr2 = Some s'
    /\ ((1%nat, Sync EndWrite) ∉ tr2)
    /\ msg <$> live (mon s') = [[65]; [66]]
    /\ Forall (λ t', t' = 1%nat) (appenders tr2).
Proof.
  intros m0 tr1 tr2. eexists. eexists.
  split; [reflexivity |]. split; [vm_compute; reflexivity |].
  split; [reflexivity |]. split; [vm_compute; reflexivity |].
  assert (Hno : (1%nat, Sync EndWrite) ∉ tr2).
  { subst tr2. intros H. repeat (apply elem_of_cons in H as [H | H];
      [discriminate |]). now apply elem_of_nil in H. }
  split; [exact Hno |]. split; [reflexivity |].
  refine (proj1 (proj2
    (writer_exclusive 3 96 [] m0 3 tr1 _ 1%nat tr2 _ eq_refl _ _ _ Hno)));
    reflexivity.
Defined.

(** ** The counters *)

Lemma population_total l :
  population Idle l + population WaitRead l + population Reading l
  + population WaitWrite l + population Writing l = Z.of_nat (length l).
Proof.
  induction l as [| y l IH]; [reflexivity |].
  cbn [population length]. rewrite Nat2Z.inj_succ.
  destruct y; repeat case_bool_decide; try congruence; lia.
Qed.

Lemma xrun_length tr : forall s s',
  xrun s tr = Some s' -> length (threads s') = length (threads s).
Proof.
  induction tr as [| [t x] tr IH]; intros s s' Hrun.
  - now injection Hrun as <-.
  - cbn [xrun] in Hrun. destruct (xexec s t x) as [s1 |] eqn:He;
      [| discriminate].
    rewrite (IH s1 s' Hrun). exact (xexec_length s t x s1 He).
Qed.

(** X4. In every state that [n] driver threads reach from a fresh
    monitor, with appends between the synchronisation steps, the four
    counters are non-negative, [writer_active] is 0 or 1, and together
    they count at most [n] threads; so with no more than [INT_MAX]
    threads no [int] counter ever overflows or goes negative. *)
Theorem counters_bounded cap esz old m0 n tr s :
  created cap esz old m0 ->
  xrun (init_system m0 n) tr = Some s ->
  0 <= readers_active (mon s)
  /\ 0 <= readers_waiting (mon s)
  /\ 0 <= writers_waiting (mon s)
  /\ (writer_active (mon s) = 0 \/ writer_active (mon s) = 1)
  /\ readers_active (mon s) + readers_waiting (mon s)
     + writers_waiting (mon s) + writer_active (mon s) <= Z.of_nat n.
Proof.
  intros Hcr Hrun.
  pose proof (xrun_inv tr _ _ (sync_inv_init cap esz old m0 n Hcr) Hrun)
    as [Hra Hrw Hww Hwa Hone Hexcl].
  pose proof (xrun_length tr _ _ Hrun) as Hlen.
  cbn [init_system threads] in Hlen. rewrite length_replicate in Hlen.
  pose proof (population_total (threads s)) as Htot.
  pose proof (population_bounds Idle (threads s)).
  pose proof (population_bounds Reading (threads s)).
  pose proof (population_bounds WaitRead (threads s)).
  pose proof (population_bounds WaitWrite (threads s)).
  pose proof (population_bounds Writing (threads s)).
  rewrite Hlen in Htot.
  split; [lia |]. split; [lia |]. split; [lia |]. split; [exact Hone | lia].
Qed.

Lemma counters_bounded_witness :
  let tr := [(0%nat, Sync BeginWrite); (1%nat, Sync BeginRead);
             (2%nat, Sync BeginWrite); (0%nat, Append zero_entry t0)] in
  exists s,
    created 3 96 [] (initial_monitor 3 96 [])
    /\ xrun (init_system (initial_monitor 3 96 []) 3) tr = Some s
    /\ writers_waiting (mon s) = 1
    /\ readers_active (mon s) + readers_waiting (mon s)
       + writers_waiting (mon s) + writer_active (mon s) <= 3.
Proof.
  intros tr. eexists. split; [reflexivity |].
  split; [vm_compute; reflexivity |]. split; [reflexivity |].
  refine (proj2 (proj2 (proj2 (proj2
    (counters_bounded 3 96 [] (initial_monitor 3 96 []) 3 tr _ eq_refl _)))));
    reflexivity.
Defined.

(** ** Writer preference *)

Lemma held_step s t x s1 :
  sync_inv s ->
  0 < writers_waiting (mon s) ->
  xexec s t x = Some s1 ->
  writer_enters s t x = false ->
  readers_active (mon s1) <= readers_active (mon s)
  /\ writers_waiting (mon s) <= writers_waiting (mon s1)
  /\ (forall u, threads s1 !! u = Some Reading ->
                threads s !! u = Some Reading).
Proof.
  intros [Hra Hrw Hww Hwa Hone Hexcl] Hq He Hno.
  unfold writer_enters in Hno. rewrite He in Hno.
  destruct x as [o | e now].
  - cbn [xexec] in He.
    assert (Hins : forall st st',
      threads s !! t = Some st -> st' <> Reading ->
      forall u, <[t := st']> (threads s) !! u = Some Reading ->
                threads s !! u = Some Reading).
    { intros st st' Ht Hst u Hu. destruct (decide (u = t)) as [-> | Hne].
      - rewrite list_lookup_insert_eq in Hu by (now apply lookup_lt_Some in Ht).
        congruence.
      - now rewrite list_lookup_insert_ne in Hu by congruence. }
    assert (Henter : forall st,
      threads s !! t = Some st -> st <> Writing ->
      bool_decide (<[t := Writing]> (threads s) !! t = Some Writing)
      && negb (bool_decide (threads s !! t = Some Writing)) = true).
    { intros st Ht Hst.
      rewrite list_lookup_insert_eq by (now apply lookup_lt_Some in Ht).
      rewrite Ht, bool_decide_eq_true_2 by reflexivity.
      rewrite bool_decide_eq_false_2 by congruence. reflexivity. }
    exec_cases He Ht; revert Hno; unfold_sync;
      cbn [with_sync readers_active readers_waiting writers_waiting
           writer_active];
      repeat match goal with
        | |- context [?a =? ?b] => destruct (Z.eqb_spec a b)
        | |- context [?a <? ?b] => destruct (Z.ltb_spec a b)
        end;
      cbn [negb orb mon threads with_sync readers_active readers_waiting
           writers_waiting writer_active];
      intros Hno; try lia;
      try (rewrite (Henter _ eq_refl) in Hno by discriminate; discriminate);
      (split; [lia | split; [lia |]]);
      apply (Hins _ _ eq_refl); discriminate.
  - cbn in He. destruct (threads s !! t) as [[] |]; try discriminate.
    injection He as <-.
    destruct (append_locked_sync (mon s) e (thread_id t) now)
      as (H1 & H2 & H3 & H4).
    cbn [mon threads]. rewrite H1, H3. repeat split; try lia. auto.
Qed.

Lemma held_run tr : forall s s',
  sync_inv s ->
  0 < writers_waiting (mon s) ->
  xrun s tr = Some s' ->
  no_writer_enters s tr = true ->
  readers_active (mon s') <= readers_active (mon s)
  /\ writers_waiting (mon s) <= writers_waiting (mon s')
  /\ (forall u, threads s' !! u = Some Reading ->
                threads s !! u = Some Reading).
Proof.
  induction tr as [| [t x] tr IH]; intros s s' Hinv Hq Hrun Hno.
  - injection Hrun as <-. repeat split; try lia. auto.
  - cbn [xrun] in Hrun. cbn [no_writer_enters] in Hno.
    destruct (xexec s t x) as [s1 |] eqn:He; [| discriminate].
    apply andb_true_iff in Hno as [Hn1 Hn2].
    apply negb_true_iff in Hn1.
    destruct (held_step s t x s1 Hinv Hq He Hn1) as (H1 & H2 & H3).
    destruct (IH s1 s' (xexec_inv s t x s1 Hinv He) ltac:(lia) Hrun Hn2)
      as (H4 & H5 & H6).
    repeat split; try lia. auto.
Qed.

(** X5. Writers hold readers back: from any reachable state in which a
    writer waits, until some writer gets through [rwlog_begin_write] no
    thread becomes an active reader, whatever calls and wake-ups happen:
    the active readers can only leave, [readers_active] never grows, and
    the waiting writers stay queued. *)
Theorem waiting_writer_bars_readers cap esz old m0 n tr1 s tr2 s' :
  created cap esz old m0 ->
  xrun (init_system m0 n) tr1 = Some s ->
  0 < writers_waiting (mon s) ->
  xrun s tr2 = Some s' ->
  no_writer_enters s tr2 = true ->
  readers_active (mon s') <= readers_active (mon s)
  /\ writers_waiting (mon s) <= writers_waiting (mon s')
  /\ (forall u, threads s' !! u = Some Reading ->
                threads s !! u = Some Reading).
Proof.
  intros Hcr Hrun1 Hq Hrun2 Hno.
  pose proof (xrun_inv tr1 _ _ (sync_inv_init cap esz old m0 n Hcr) Hrun1)
    as Hinv.
  exact (held_run tr2 s s' Hinv Hq Hrun2 Hno).
Qed.

Lemma waiting_writer_bars_readers_witness :
  let m0 := initial_monitor 3 96 [] in
  let tr1 := [(0%nat, Sync BeginRead); (1%nat, Sync BeginWrite)] in
  let tr2 := [(2%nat, Sync BeginRead); (2%nat, Sync WakeRead);
              (1%nat, Sync WakeWrite); (0%nat, Sync EndRead);
              (2%nat, Sync WakeRead)] in
  exists s s',
    created 3 96 [] m0
    /\ xrun (init_system m0 3) tr1 = Some s
    /\ 0 < writers_waiting (mon s)
    /\ xrun s tr2 = Some s'
    /\ no_writer_enters s tr2 = true
    /\ threads s' = [Idle; WaitWrite; WaitRead]
    /\ readers_active (mon s') <= readers_active (mon s).
Proof.
  intros m0 tr1 tr2. eexists. eexists.
  split; [reflexivity |]. split; [vm_compute; reflexivity |].
  split; [reflexivity |]. split; [vm_compute; reflexivity |].
  split; [reflexivity |]. split; [reflexivity |].
  refine (proj1
    (waiting_writer_bars_readers 3 96 [] m0 3 tr1 _ tr2 _ eq_refl _ _ _ _));
    reflexivity.
Defined.

(** ** Signals and broadcasts *)

Lemma population_pos x l : 0 < population x l -> exists t, l !! t = Some x.
Proof.
  induction l as [| y l IH]; cbn [population]; [lia |].
  intros H. destruct (decide (y = x)) as [-> | Hne].
  - now exists 0%nat.
  - rewrite bool_decide_eq_false_2 in H by assumption.
    destruct (IH ltac:(lia)) as [t Ht]. now exists (S t).
Qed.

Lemma any_blocked_false st ths : forall w t,
  any_blocked st ths w = false ->
  length w = length ths ->
  ths !! t = Some st -> w !! t = Some true.
Proof.
  induction ths as [| x ths IH]; intros w t Hb Hlen Ht; [done |].
  destruct w as [| b w]; [discriminate |].
  cbn [any_blocked] in Hb. apply orb_false_iff in Hb as [Hb1 Hb2].
  destruct t as [| t].
  - injection Ht as ->. rewrite bool_decide_eq_true_2 in Hb1 by reflexivity.
    destruct b; [reflexivity | discriminate].
  - cbn in Ht |- *. apply IH; [assumption | cbn in Hlen; lia | assumption].
Qed.

Lemma cond_signal_spec st pick ths w w' :
  cond_signal st pick ths w = Some w' ->
  length w = length ths ->
  length w' = length ths
  /\ (forall t, w !! t = Some true -> w' !! t = Some true)
  /\ (forall t, ths !! t = Some st ->
        exists u, ths !! u = Some st /\ w' !! u = Some true).
Proof.
  unfold cond_signal. intros Hs Hlen.
  destruct (bool_decide (ths !! pick = Some st)
            && bool_decide (w !! pick = Some false)) eqn:Hp.
  - injection Hs as <-. apply andb_true_iff in Hp as [Hp1 Hp2].
    apply bool_decide_eq_true_1 in Hp1, Hp2.
    pose proof (lookup_lt_Some _ _ _ Hp2) as Hlt.
    split; [now rewrite length_insert |]. split.
    + intros t Ht. destruct (decide (t = pick)) as [-> | Hne].
      * now rewrite list_lookup_insert_eq.
      * now rewrite list_lookup_insert_ne by congruence.
    + intros _ _. exists pick. split; [assumption |].
      now rewrite list_lookup_insert_eq.
  - destruct (any_blocked st ths w) eqn:Hb; [discriminate |].
    injection Hs as <-. split; [assumption |]. split; [auto |].
    intros t Ht. exists t. split; [assumption |].
    now apply (any_blocked_false st ths).
Qed.

Lemma cond_broadcast_length st ths w :
  length w = length ths -> length (cond_broadcast st ths w) = length ths.
Proof.
  intros Hlen. unfold cond_broadcast. rewrite length_zip_with. lia.
Qed.

Lemma cond_broadcast_lookup st ths w t x b :
  ths !! t = Some x -> w !! t = Some b ->
  cond_broadcast st ths w !! t = Some (bool_decide (x = st) || b).
Proof.
  intros Hx Hb. unfold cond_broadcast.
  rewrite lookup_zip_with, Hx. cbn. rewrite Hb. reflexivity.
Qed.

Lemma cond_broadcast_keeps st ths w t :
  length w = length ths -> w !! t = Some true ->
  cond_broadcast st ths w !! t = Some true.
Proof.
  intros Hlen Hw.
  destruct (lookup_lt_is_Some_2 ths t) as [x Hx].
  { rewrite <- Hlen. now apply lookup_lt_Some in Hw. }
  rewrite (cond_broadcast_lookup st ths w t x true Hx Hw).
  now rewrite orb_true_r.
Qed.

Lemma cond_broadcast_wakes st ths w t :
  length w = length ths -> ths !! t = Some st ->
  cond_broadcast st ths w !! t = Some true.
Proof.
  intros Hlen Hx.
  destruct (lookup_lt_is_Some_2 w t) as [b Hb].
  { rewrite Hlen. now apply lookup_lt_Some in Hx. }
  rewrite (cond_broadcast_lookup st ths w t st b Hx Hb).
  now rewrite bool_decide_eq_true_2.
Qed.

(** A thread that changes state, to anything but a waiting writer, leaves
    an unblocked waiting writer as it is. *)
Lemma keep_writer (ths : list tstate) (w : list bool) (t : nat) X f :
  ths !! t <> Some WaitWrite ->
  (exists u, ths !! u = Some WaitWrite /\ w !! u = Some true) ->
  exists u, <[t := X]> ths !! u = Some WaitWrite
            /\ <[t := f]> w !! u = Some true.
Proof.
  intros Ht (u & Hu & Hw). exists u.
  assert (u <> t) by congruence.
  now rewrite !list_lookup_insert_ne by congruence.
Qed.

Lemma writer_before (ths : list tstate) (t : nat) X :
  X <> WaitWrite ->
  (exists u, <[t := X]> ths !! u = Some WaitWrite) ->
  exists u, ths !! u = Some WaitWrite.
Proof.
  intros HX (u & Hu). exists u. destruct (decide (u = t)) as [-> | Hne].
  - apply list_lookup_insert_Some in Hu as [(_ & ? & _) | (? & _)];
      congruence.
  - now rewrite list_lookup_insert_ne in Hu by congruence.
Qed.

Lemma keep_readers (ths : list tstate) (w : list bool) (t : nat) X f :
  X <> WaitRead ->
  (forall u, ths !! u = Some WaitRead -> w !! u = Some true) ->
  forall u, <[t := X]> ths !! u = Some WaitRead ->
            <[t := f]> w !! u = Some true.
Proof.
  intros HX Hall u Hu. destruct (decide (u = t)) as [-> | Hne].
  - apply list_lookup_insert_Some in Hu as [(_ & ? & _) | (? & _)];
      congruence.
  - rewrite list_lookup_insert_ne in Hu by congruence.
    rewrite list_lookup_insert_ne by congruence. now apply Hall.
Qed.

(** ** No wake-up is lost *)

Ltac split_guards :=
  repeat match goal with
    | |- context [?a =? ?b] => destruct (Z.eqb_spec a b)
    | |- context [?a <? ?b] => destruct (Z.ltb_spec a b)
    end;
  cbn [negb orb andb].

Ltac sync_fields :=
  cbn [base woken mon threads with_sync readers_active readers_waiting
       writers_waiting writer_active].

Lemma sexec_call_inv s t o pick s' :
  wake_inv s -> sexec s t (Call o pick) = Some s' -> wake_inv s'.
Proof.
  intros [Hsync Hlen Hw Hr] He. cbn [sexec] in He.
  destruct (is_wake o && negb (bool_decide (woken s !! t = Some true)));
    [discriminate |].
  destruct (exec (base s) t o) as [b' |] eqn:Hex; [| discriminate].
  destruct (signals_after o pick (mon b') (threads b')
              (<[t := false]> (woken s))) as [w' |] eqn:Hsig;
    [| discriminate].
  injection He as <-.
  pose proof (exec_inv _ _ _ _ Hsync Hex) as Hsync'.
  pose proof Hsync as [Hra Hrw Hww Hwa Hone Hexcl].
  pose proof (population_bounds Reading (threads (base s))) as Br.
  pose proof (population_bounds WaitWrite (threads (base s))) as Bw.
  assert (Hwx : forall X,
    X <> WaitWrite ->
    (exists u, <[t := X]> (threads (base s)) !! u = Some WaitWrite) ->
    0 < writers_waiting (mon (base s))).
  { intros X HX HA. destruct (writer_before _ _ _ HX HA) as [u0 Hu0].
    pose proof (population_lookup _ _ _ Hu0). lia. }
  assert (Hlt : (t < length (threads (base s)))%nat).
  { unfold exec in Hex. destruct (threads (base s) !! t) eqn:E;
      [now apply lookup_lt_Some in E | discriminate]. }
  revert Hsync' Hsig. exec_cases Hex Ht; unfold_sync;
    cbn [signals_after]; sync_fields; split_guards; sync_fields;
    intros Hsync' Hsig.
  all: pose proof (population_lookup _ _ _ Ht) as Bst.
  all: constructor; sync_fields; try exact Hsync'.
  all: try (injection Hsig as <-).
  all: try (apply cond_signal_spec in Hsig as (Hsl & Hsm & Hse);
            [| rewrite !length_insert; exact Hlen]).
  (* lengths *)
  all: try (rewrite !length_insert; exact Hlen).
  all: try exact Hsl.
  all: try (apply cond_broadcast_length; rewrite !length_insert; exact Hlen).
  (* no writer is forgotten *)
  all: try (intros A1 A2 A3; first
    [ lia
    | pose proof (fun HX => Hwx _ HX A3) as Hq;
      specialize (Hq ltac:(discriminate)); lia
    | destruct A3 as [t0 Ht0]; exact (Hse t0 Ht0)
    | apply keep_writer; [rewrite Ht; discriminate |];
      apply Hw; [lia | lia |];
      eapply writer_before; [| exact A3]; discriminate
    ]).
  (* no reader is forgotten *)
  all: try (intros B1 B2 u Hu; first
    [ lia
    | apply cond_broadcast_wakes; [rewrite !length_insert; exact Hlen | exact Hu]
    | eapply keep_readers; [| apply Hr; lia | exact Hu]; discriminate
    ]).
Qed.

Lemma sexec_inv s t x s' :
  wake_inv s -> sexec s t x = Some s' -> wake_inv s'.
Proof.
  intros Hinv He. destruct x as [o pick | |].
  - exact (sexec_call_inv s t o pick s' Hinv He).
  - destruct Hinv as [Hsync Hlen Hw Hr]. injection He as <-.
    assert (Hl1 : length (cond_broadcast WaitRead (threads (base s)) (woken s))
                  = length (threads (base s)))
      by now apply cond_broadcast_length.
    constructor; sync_fields.
    + exact Hsync.
    + now apply cond_broadcast_length.
    + intros _ _ [u Hu]. exists u. split; [exact Hu |].
      now apply cond_broadcast_wakes.
    + intros _ _ u Hu. apply cond_broadcast_keeps; [exact Hl1 |].
      now apply cond_broadcast_wakes.
  - destruct Hinv as [Hsync Hlen Hw Hr]. cbn [sexec] in He.
    destruct (threads (base s) !! t) as [st |] eqn:Ht; [| discriminate].
    destruct (is_waiting st); [| discriminate]. injection He as <-.
    assert (Hmono : forall u, woken s !! u = Some true ->
                              <[t := true]> (woken s) !! u = Some true).
    { intros u Hu. destruct (decide (u = t)) as [-> | Hne].
      - apply list_lookup_insert_eq. now apply lookup_lt_Some in Hu.
      - now rewrite list_lookup_insert_ne by congruence. }
    constructor; sync_fields.
    + exact Hsync.
    + now rewrite length_insert.
    + intros A1 A2 A3. destruct (Hw A1 A2 A3) as (u & Hu1 & Hu2).
      exists u. auto.
    + intros B1 B2 u Hu. apply Hmono. now apply Hr.
Qed.

Lemma srun_inv tr : forall s s',
  wake_inv s -> srun s tr = Some s' -> wake_inv s'.
Proof.
  induction tr as [| [t x] tr IH]; intros s s' Hinv Hrun.
  - injection Hrun as <-. exact Hinv.
  - cbn [srun] in Hrun. destruct (sexec s t x) as [s1 |] eqn:He;
      [| discriminate].
    exact (IH s1 s' (sexec_inv s t x s1 Hinv He) Hrun).
Qed.

Lemma wake_inv_init cap esz old m n :
  created cap esz old m -> wake_inv (init_sigsys m n).
Proof.
  intros Hcr. constructor; cbn [init_sigsys base woken init_system threads].
  - now apply (sync_inv_init cap esz old).
  - now rewrite !length_replicate.
  - intros _ _ [u Hu]. apply lookup_replicate in Hu as [? _]. discriminate.
  - intros _ _ u Hu. apply lookup_replicate in Hu as [? _]. discriminate.
Qed.

Lemma any_blocked_true st ths : forall w,
  any_blocked st ths w = true ->
  exists pick, ths !! pick = Some st /\ w !! pick = Some false.
Proof.
  induction ths as [| x ths IH]; intros w Hb; [discriminate |].
  destruct w as [| b w]; [discriminate |].
  cbn [any_blocked] in Hb. apply orb_true_iff in Hb as [Hb | Hb].
  - apply andb_true_iff in Hb as [H1 H2].
    apply bool_decide_eq_true_1 in H1 as ->. destruct b; [discriminate |].
    now exists 0%nat.
  - destruct (IH w Hb) as (pick & H1 & H2). now exists (S pick).
Qed.

(** A signal always has a thread it can choose. *)
Lemma cond_signal_total st ths w :
  exists pick w', cond_signal st pick ths w = Some w'.
Proof.
  destruct (any_blocked st ths w) eqn:Hb.
  - destruct (any_blocked_true st ths w Hb) as (pick & H1 & H2).
    exists pick. eexists. unfold cond_signal.
    now rewrite !bool_decide_eq_true_2 by assumption.
  - exists 0%nat. unfold cond_signal. rewrite Hb.
    destruct (bool_decide _ && bool_decide _); eauto.
Qed.

(** X6. No wake-up is lost.  With [pthread_cond_signal] unblocking one
    blocked waiter and [pthread_cond_broadcast] all of them, in every
    reachable state: a thread inside can always leave; and when nobody is
    inside while some thread waits, a waiting thread has been unblocked
    and enters as soon as it runs.  With writers waiting that thread is a
    writer. *)
Theorem no_lost_wakeup cap esz old m0 n tr s :
  created cap esz old m0 ->
  srun (init_sigsys m0 n) tr = Some s ->
  (forall t, threads (base s) !! t = Some Reading ->
     exists pick s', sexec s t (Call EndRead pick) = Some s')
  /\ (forall t, threads (base s) !! t = Some Writing ->
     exists pick s', sexec s t (Call EndWrite pick) = Some s')
  /\ (readers_active (mon (base s)) = 0 ->
      writer_active (mon (base s)) = 0 ->
      forall t0 st, threads (base s) !! t0 = Some st ->
        is_waiting st = true ->
        exists t o s',
          woken s !! t = Some true
          /\ sexec s t (Call o 0%nat) = Some s'
          /\ ((0 < writers_waiting (mon (base s))
               /\ o = WakeWrite
               /\ threads (base s') !! t = Some Writing)
              \/ (writers_waiting (mon (base s)) = 0
                  /\ o = WakeRead
                  /\ threads (base s') !! t = Some Reading))).
Proof.
  intros Hcr Hrun.
  pose proof (srun_inv tr _ _ (wake_inv_init cap esz old m0 n Hcr) Hrun)
    as [Hsync Hlen Hw Hr].
  pose proof Hsync as [Hra Hrw Hww Hwa Hone Hexcl].
  split; [| split].
  - intros t Ht. cbn [sexec is_wake andb]. unfold exec. rewrite Ht.
    cbn [signals_after mon threads].
    destruct ((readers_active (end_read_locked (mon (base s))) =? 0)
              && (0 <? writers_waiting (end_read_locked (mon (base s))))).
    + destruct (cond_signal_total WaitWrite
                  (<[t := Idle]> (threads (base s)))
                  (<[t := false]> (woken s))) as (pick & w' & Hs).
      exists pick. rewrite Hs. eauto.
    + exists 0%nat. eauto.
  - intros t Ht. cbn [sexec is_wake andb]. unfold exec. rewrite Ht.
    cbn [signals_after mon threads].
    destruct (0 <? writers_waiting (end_write_locked (mon (base s)))).
    + destruct (cond_signal_total WaitWrite
                  (<[t := Idle]> (threads (base s)))
                  (<[t := false]> (woken s))) as (pick & w' & Hs).
      exists pick. rewrite Hs. eauto.
    + exists 0%nat. eauto.
  - intros Hfree1 Hfree2 t0 st Ht0 Hwait.
    pose proof (population_bounds WaitWrite (threads (base s))) as Bw.
    destruct (Z.lt_ge_cases 0 (writers_waiting (mon (base s)))) as [Hq | Hq].
    + destruct (population_pos WaitWrite (threads (base s)) ltac:(lia))
        as [u Hu].
      destruct (Hw Hfree1 Hfree2 (ex_intro _ u Hu)) as (t & Ht & Hwk).
      exists t, WakeWrite. eexists. split; [exact Hwk |].
      cbn [sexec is_wake andb]. rewrite (bool_decide_eq_true_2 _ Hwk).
      cbn [negb]. unfold exec. rewrite Ht.
      unfold begin_write_wake, begin_write_loop.
      rewrite Hfree1, Hfree2. cbn [Z.ltb Z.eqb Z.compare negb orb settle
        signals_after]. split; [reflexivity |]. left.
      split; [exact Hq |]. split; [reflexivity |]. cbn [base threads].
      apply list_lookup_insert_eq. now apply lookup_lt_Some in Ht.
    + assert (Hz : writers_waiting (mon (base s)) = 0) by lia.
      assert (Hst : st = WaitRead).
      { destruct st; try discriminate; [reflexivity |].
        pose proof (population_lookup _ _ _ Ht0). lia. }
      subst st. pose proof (Hr Hfree2 Hz t0 Ht0) as Hwk.
      exists t0, WakeRead. eexists. split; [exact Hwk |].
      cbn [sexec is_wake andb]. rewrite (bool_decide_eq_true_2 _ Hwk).
      cbn [negb]. unfold exec. rewrite Ht0.
      unfold begin_read_wake, begin_read_loop. sync_fields.
      rewrite Hfree2, Hz. cbn [Z.ltb Z.eqb Z.compare negb orb settle
        signals_after]. split; [reflexivity |]. right.
      split; [reflexivity |]. split; [reflexivity |]. cbn [base threads].
      apply list_lookup_insert_eq. now apply lookup_lt_Some in Ht0.
Qed.

Lemma no_lost_wakeup_witness :
  let m0 := initial_monitor 3 96 [] in
  let tr := [(0%nat, Call BeginWrite 0%nat); (1%nat, Call BeginRead 0%nat);
             (2%nat, Call BeginWrite 0%nat); (0%nat, Call EndWrite 2%nat)] in
  exists s,
    created 3 96 [] m0
    /\ srun (init_sigsys m0 3) tr = Some s
    /\ threads (base s) = [Idle; WaitRead; WaitWrite]
    /\ woken s = [false; false; true]
    /\ exists t o s',
         woken s !! t = Some true
         /\ sexec s t (Call o 0%nat) = Some s'
         /\ ((0 < writers_waiting (mon (base s))
              /\ o = WakeWrite
              /\ threads (base s') !! t = Some Writing)
             \/ (writers_waiting (mon (base s)) = 0
                 /\ o = WakeRead
                 /\ threads (base s') !! t = Some Reading)).
Proof.
  intros m0 tr. eexists. split; [reflexivity |].
  split; [vm_compute; reflexivity |]. split; [reflexivity |].
  split; [reflexivity |].
  refine (proj2 (proj2 (no_lost_wakeup 3 96 [] m0 3 tr _ eq_refl _))
            _ _ 1%nat WaitRead _ _); reflexivity.
Defined.

(** ** The reader's check *)

Lemma check_loop_nil buffer n : forall i,
  check_loop buffer n i = []
  <-> forall k, (k < n)%nat ->
        seq (entry_at buffer (i + Z.of_nat k - 1))
        < seq (entry_at buffer (i + Z.of_nat k)).
Proof.
  induction n as [| n IH]; intros i.
  - split; [intros _ k Hk; lia | reflexivity].
  - cbn [check_loop].
    destruct (Z.leb_spec (seq (entry_at buffer i))
                (seq (entry_at buffer (i - 1)))) as [Hle | Hgt].
    + split; [discriminate |]. intros H. specialize (H 0%nat ltac:(lia)).
      rewrite Z.add_0_r in H. lia.
    + rewrite IH. split.
      * intros H k Hk. destruct k as [| k].
        -- now rewrite Z.add_0_r.
        -- specialize (H k ltac:(lia)).
           replace (i + Z.of_nat (S k)) with (i + 1 + Z.of_nat k) by lia.
           exact H.
      * intros H k Hk. specialize (H (S k) ltac:(lia)).
        replace (i + 1 + Z.of_nat k) with (i + Z.of_nat (S k)) by lia.
        exact H.
Qed.

Lemma seq_take_lookup (buffer : list rwlog_entry_t) c k :
  (k < c)%nat -> (c <= length buffer)%nat ->
  (seq <$> take c buffer) !! k = Some (seq (entry_at buffer (Z.of_nat k))).
Proof.
  intros Hk Hc. rewrite list_lookup_fmap, lookup_take_lt by exact Hk.
  unfold entry_at. rewrite Nat2Z.id.
  destruct (lookup_lt_is_Some_2 buffer k ltac:(lia)) as [x ->]. reflexivity.
Qed.

(** X7. The check of [reader_thread] is exact: on a buffer holding
    [count] entries it reports no violation if and only if the sequence
    numbers of these entries are strictly increasing by index; with
    [count > 0] it leaves [last_seq] at the last entry's sequence number,
    and with [count = 0] as it was. *)
Theorem reader_check_exact buffer count last_seq :
  0 <= count ->
  (Z.to_nat count <= length buffer)%nat ->
  ((reader_check buffer count last_seq).1 = []
   <-> increasing (seq <$> take (Z.to_nat count) buffer))
  /\ (reader_check buffer count last_seq).2
     = (if 0 <? count then seq (entry_at buffer (count - 1)) else last_seq).
Proof.
  intros Hc Hlen. unfold reader_check.
  destruct (Z.ltb_spec 0 count) as [Hpos | Hz]; cbn [fst snd].
  - split; [| reflexivity]. rewrite check_loop_nil. split.
    + intros H. apply increasing_lookup. intros i x y Hx Hy.
      assert (Hi : (S i < Z.to_nat count)%nat).
      { apply lookup_lt_Some in Hy. rewrite length_fmap, length_take in Hy.
        lia. }
      rewrite seq_take_lookup in Hx, Hy by lia.
      injection Hx as <-. injection Hy as <-.
      specialize (H i ltac:(lia)).
      replace (1 + Z.of_nat i - 1) with (Z.of_nat i) in H by lia.
      replace (1 + Z.of_nat i) with (Z.of_nat (S i)) in H by lia.
      exact H.
    + intros H k Hk.
      apply (increasing_elim _ k (S k) _ _ H ltac:(lia)).
      * rewrite seq_take_lookup by lia. repeat f_equal; lia.
      * rewrite seq_take_lookup by lia. repeat f_equal; lia.
  - replace count with 0 by lia. cbn. split; [| reflexivity].
    split; intros _; [exact I | reflexivity].
Qed.

Lemma reader_check_exact_witness :
  let good := [(say 65 1).1.1; set_seq 4 zero_entry; set_seq 9 zero_entry] in
  let bad := [set_seq 4 zero_entry; set_seq 4 zero_entry] in
  0 <= 3 /\ (Z.to_nat 3 <= length good)%nat
  /\ increasing (seq <$> take (Z.to_nat 3) good)
  /\ (reader_check good 3 0).1 = []
  /\ (reader_check bad 2 0).1 = [1].
Proof.
  intros good bad.
  assert (H1 : 0 <= 3) by lia.
  assert (H2 : (Z.to_nat 3 <= length good)%nat) by (cbn; lia).
  assert (H3 : increasing (seq <$> take (Z.to_nat 3) good))
    by (vm_compute; repeat split).
  split; [exact H1 |]. split; [exact H2 |]. split; [exact H3 |].
  split; [| reflexivity].
  exact (proj2 (proj1 (reader_check_exact good 3 0 H1 H2)) H3).
Defined.

(** X8. The reader never finds a violation: for every log that fewer than
    [2^64] appends made from a store whose array has a byte size that
    does not wrap, the check of [reader_thread] on its snapshot of at
    most 128 entries reports nothing, and [last_seq] ends at the sequence
    number of the last entry copied, which is the [min count 128]-th
    oldest live entry, not the newest when more than 128 are live. *)
Theorem reader_finds_no_violation cap esz old m0 ins buffer last_seq :
  fits cap esz ->
  created cap esz old m0 ->
  Z.of_nat (length ins) < SIZE_MOD ->
  length buffer = 128%nat ->
  let m := append_all m0 ins in
  let cnt := Z.min (count m) 128 in
  exists out,
    rwlog_snapshot (Some m) (Some buffer) 128 = (cnt, Some out, Some m)
    /\ reader_check out cnt last_seq
       = ([], if 0 <? cnt
              then Z.of_nat (length ins) - count m + cnt
              else last_seq).
Proof.
  intros Hf Hcr Hn Hbuf m cnt.
  destruct (fits_range cap esz Hf) as [Hcap _].
  assert (H128 : 128 < SIZE_MOD) by reflexivity.
  destruct (store_after_appends cap esz old m0 ins Hf Hcr)
    as (Hwf & Hc & Hcnt & _ & Hseq).
  fold m in Hwf, Hc, Hcnt, Hseq.
  pose proof Hwf as [_ _ _ Hcount _].
  assert (Hcn : 0 <= cnt <= count m) by lia.
  eexists. split.
  { apply rwlog_snapshot_spec; try assumption; lia. }
  fold cnt. set (out := take (Z.to_nat cnt) (live m) ++ _).
  assert (Hol : (Z.to_nat cnt <= length out)%nat).
  { subst out. rewrite length_app, length_take, live_length. lia. }
  assert (Hpre : take (Z.to_nat cnt) out = take (Z.to_nat cnt) (live m)).
  { subst out. rewrite take_app_le by (rewrite length_take, live_length; lia).
    rewrite take_take. f_equal. lia. }
  destruct (reader_check out cnt last_seq) as [viol last'] eqn:Hrc.
  pose proof (check_loop_nil out (Z.to_nat (cnt - 1)) 1) as Hnil.
  unfold reader_check in Hrc.
  destruct (Z.ltb_spec 0 cnt) as [Hpos | Hz].
  - injection Hrc as <- <-. f_equal.
    + apply Hnil. intros k Hk.
      assert (Hinc : increasing (seq <$> take (Z.to_nat cnt) out)).
      { rewrite Hpre, fmap_take, Hseq. apply increasing_run; lia. }
      apply (increasing_elim _ k (S k) _ _ Hinc ltac:(lia)).
      * rewrite seq_take_lookup by lia. repeat f_equal; lia.
      * rewrite seq_take_lookup by lia. repeat f_equal; lia.
    + assert (Hlast : (seq <$> take (Z.to_nat cnt) out)
                        !! Z.to_nat (cnt - 1)
                      = Some (seq (entry_at out (cnt - 1)))).
      { rewrite seq_take_lookup by lia. repeat f_equal; lia. }
      rewrite Hpre, fmap_take, Hseq, take_fmap_seqZ in Hlast by lia.
      rewrite list_lookup_fmap, lookup_seqZ_lt in Hlast by lia.
      injection Hlast as <-. rewrite wrap64_small by lia. lia.
  - injection Hrc as <- <-. reflexivity.
Qed.

Lemma reader_finds_no_violation_witness :
  let m0 := initial_monitor 2 96 [] in
  let ins := [say 65 1; say 66 2; say 67 3] in
  let buffer := replicate 128 zero_entry in
  fits 2 96 /\ created 2 96 [] m0
  /\ Z.of_nat (length ins) < SIZE_MOD /\ length buffer = 128%nat
  /\ exists out,
       rwlog_snapshot (Some (append_all m0 ins)) (Some buffer) 128
         = (2, Some out, Some (append_all m0 ins))
       /\ reader_check out 2 0 = ([], 3).
Proof.
  intros m0 ins buffer.
  assert (H1 : fits 2 96) by (unfold fits, SIZE_MOD; lia).
  assert (H2 : Z.of_nat (length ins) < SIZE_MOD) by (vm_compute; reflexivity).
  split; [exact H1 |]. split; [reflexivity |]. split; [exact H2 |].
  split; [reflexivity |].
  exact (reader_finds_no_violation 2 96 [] m0 ins buffer 0 H1 eq_refl H2 eq_refl).
Defined.

(** ** The address splitter *)

(** X9. The page number and the offset that the address program prints
    take the 32-bit address apart without loss: the address is
    [page_number * 4096 + offset] with [0 <= offset < 4096] and
    [0 <= page_number < 2^20], it is put back by shifting and or-ing, and
    no other pair in these ranges gives the address.  An input beyond 32
    bits is first cut to its low 32 bits. *)
Theorem split_address_exact address :
  0 <= address ->
  let '(virtual_addr, page_number, offset) := split_address address in
  virtual_addr = address mod 2 ^ 32
  /\ virtual_addr = page_number * PAGE_SIZE + offset
  /\ 0 <= offset < PAGE_SIZE
  /\ 0 <= page_number < 2 ^ 20
  /\ virtual_addr = Z.lor (Z.shiftl page_number 12) offset
  /\ (forall p o, 0 <= o < PAGE_SIZE ->
        virtual_addr = p * PAGE_SIZE + o ->
        p = page_number /\ o = offset).
Proof.
  intros Ha. unfold split_address, PAGE_SIZE, OFFSET_MASK.
  set (v := address mod 2 ^ 32).
  assert (Hv : 0 <= v < 2 ^ 32) by (apply Z.mod_pos_bound; lia).
  assert (Hoff : Z.land v 4095 = v mod 4096).
  { change 4095 with (Z.ones 12). now rewrite Z.land_ones by lia. }
  assert (Hpage : Z.shiftr v 12 = v / 4096).
  { now rewrite Z.shiftr_div_pow2 by lia. }
  rewrite Hoff, Hpage.
  pose proof (Z.div_mod v 4096 ltac:(lia)) as Hdm.
  pose proof (Z.mod_pos_bound v 4096 ltac:(lia)) as Hm.
  assert (Hp : 0 <= v / 4096 < 2 ^ 20).
  { split; [apply Z.div_pos; lia |].
    apply Z.div_lt_upper_bound; lia. }
  split; [reflexivity |]. split; [lia |]. split; [exact Hm |].
  split; [exact Hp |]. split.
  - rewrite Z.shiftl_mul_pow2 by lia.
    rewrite <- Z.add_nocarry_lor.
    + change (2 ^ 12) with 4096. lia.
    + apply Z.bits_inj. intros k. rewrite Z.land_spec, Z.bits_0.
      destruct (Z.ltb_spec k 12) as [Hk | Hk].
      * destruct (Z.ltb_spec k 0) as [Hk0 | Hk0].
        -- now rewrite Z.testbit_neg_r.
        -- rewrite Z.mul_pow2_bits_low by lia. reflexivity.
      * change 4096 with (2 ^ 12). rewrite (Z.mod_pow2_bits_high v 12 k) by lia.
        apply andb_false_r.
  - intros p o Ho Heq.
    assert (p = v / 4096).
    { apply (Z.div_unique v 4096 p o); lia. }
    lia.
Qed.

Lemma split_address_exact_witness :
  0 <= 19986 /\ split_address 19986 = (19986, 4, 3602)
  /\ 19986 = 4 * PAGE_SIZE + 3602.
Proof.
  assert (H : 0 <= 19986) by lia.
  split; [exact H |]. split; [reflexivity |].
  exact (proj1 (proj2 (split_address_exact 19986 H))).
Defined.

(** ** The log under concurrency *)

Lemma xrun_log tr : forall s s',
  xrun s tr = Some s' ->
  log_of (mon s') = log_of (append_all (mon s) (appends_in tr)).
Proof.
  induction tr as [| [t x] tr IH]; intros s s' Hrun.
  - now injection Hrun as <-.
  - cbn [xrun] in Hrun. destruct (xexec s t x) as [s1 |] eqn:He;
      [| discriminate].
    rewrite (IH s1 s' Hrun). destruct x as [o | e now].
    + cbn [appends_in]. apply append_all_log. exact (exec_log s t o s1 He).
    + cbn in He. destruct (threads s !! t) as [[] |]; try discriminate.
      injection He as <-. reflexivity.
Qed.

Lemma ring_wf_log m1 m2 : log_of m1 = log_of m2 -> ring_wf m2 -> ring_wf m1.
Proof.
  unfold log_of. intros H. injection H as He Hc Hh Ht Hn Hs.
  intros [H1 H2 H3 H4 H5].
  constructor; rewrite ?He, ?Hc, ?Hh, ?Ht, ?Hn; assumption.
Qed.

(** X11. No access leaves the array: in every state the driver's threads
    reach from a store created with an array whose byte size does not
    wrap, the array has [cap] entries, the slot that [rwlog_append]
    writes ([head]) lies inside it, and so does every slot that the copy
    loop of [rwlog_snapshot] reads, whatever the loop index. *)
Theorem accesses_in_bounds cap esz old m0 n tr s :
  fits cap esz ->
  created cap esz old m0 ->
  xrun (init_system m0 n) tr = Some s ->
  length (entries (mon s)) = Z.to_nat cap
  /\ capacity (mon s) = cap
  /\ 0 <= head (mon s) < cap
  /\ 0 <= tail (mon s) < cap
  /\ 0 <= count (mon s) <= cap
  /\ (forall i, 0 <= buffer_index (wrap64 (tail (mon s) + i))
                     (capacity (mon s)) < cap).
Proof.
  intros Hf Hcr Hrun. pose proof (xrun_log tr _ _ Hrun) as Hlog.
  cbn [init_system mon] in Hlog.
  destruct (store_after_appends cap esz old m0 (appends_in tr) Hf Hcr)
    as (Hwf & Hc & _).
  pose proof (ring_wf_log _ _ Hlog Hwf) as [H1 H2 H3 H4 H5].
  assert (Hcs : capacity (mon s) = cap).
  { unfold log_of in Hlog. injection Hlog as _ Hx _ _ _ _. congruence. }
  rewrite Hcs in *.
  split; [exact H2 |]. split; [reflexivity |].
  split; [rewrite H5; apply Z.mod_pos_bound; lia |].
  split; [exact H3 |]. split; [exact H4 |].
  intros i. unfold buffer_index. apply Z.mod_pos_bound. lia.
Qed.

Lemma accesses_in_bounds_witness :
  let m0 := initial_monitor 2 96 [] in
  let tr := [(0%nat, Sync BeginWrite); (0%nat, Append zero_entry t0);
             (0%nat, Append zero_entry t0); (0%nat, Append zero_entry t0)] in
  exists s,
    fits 2 96 /\ created 2 96 [] m0
    /\ xrun (init_system m0 1) tr = Some s
    /\ head (mon s) = 1
    /\ 0 <= head (mon s) < 2.
Proof.
  intros m0 tr.
  assert (H : fits 2 96) by (unfold fits, SIZE_MOD; lia).
  eexists. split; [exact H |]. split; [reflexivity |].
  split; [vm_compute; reflexivity |]. split; [reflexivity |].
  refine (proj1 (proj2 (proj2
    (accesses_in_bounds 2 96 [] m0 1 tr _ H eq_refl _)))); reflexivity.
Defined.

(** ** Barging *)

Lemma srun_app tr1 : forall tr2 s,
  srun s (tr1 ++ tr2)
  = match srun s tr1 with Some s1 => srun s1 tr2 | None => None end.
Proof.
  induction tr1 as [| [t x] tr1 IH]; intros tr2 s; [reflexivity |].
  cbn [app srun]. destruct (sexec s t x); [apply IH | reflexivity].
Qed.

Lemma write_entries_app tr1 : forall tr2 s s1,
  srun s tr1 = Some s1 ->
  write_entries s (tr1 ++ tr2)
  = (write_entries s tr1 + write_entries s1 tr2)%nat.
Proof.
  induction tr1 as [| [t x] tr1 IH]; intros tr2 s s1 Hrun.
  - now injection Hrun as <-.
  - cbn [app srun write_entries] in *.
    destruct (sexec s t x) as [s' |]; [| discriminate].
    rewrite (IH tr2 s' s1 Hrun). lia.
Qed.

(** X12. The monitor is not fair.  With the signalling as the code has
    it, a writer that leaves and calls [rwlog_begin_write] again gets in
    ahead of the writer it has just signalled; repeated [k] times, for any
    [k], this lets one thread complete [k] more write sections while a
    reader and a second writer wait throughout and are where they were at
    the end. *)
Theorem waiters_can_starve cap esz old m0 k :
  created cap esz old m0 ->
  exists s,
    srun (init_sigsys m0 3) crowd = Some s
    /\ threads (base s) = [Writing; WaitRead; WaitWrite]
    /\ srun s (rounds k) = Some s
    /\ write_entries s (rounds k) = k.
Proof.
  intros Hcr. unfold created, rwlog_create in Hcr.
  destruct (cap =? 0); [discriminate |]. injection Hcr as <-.
  eexists. split; [reflexivity |]. split; [reflexivity |].
  match goal with |- srun ?s _ = _ /\ _ => set (s0 := s) end.
  assert (Hb : srun s0 barge = Some s0) by reflexivity.
  assert (Hw : write_entries s0 barge = 1%nat) by reflexivity.
  induction k as [| k [IH1 IH2]]; [split; reflexivity |].
  cbn [rounds]. split.
  - now rewrite srun_app, Hb.
  - rewrite (write_entries_app barge (rounds k) s0 s0 Hb), Hw, IH2.
    reflexivity.
Qed.

Lemma waiters_can_starve_witness :
  created 3 96 [] (initial_monitor 3 96 [])
  /\ exists s,
       srun (init_sigsys (initial_monitor 3 96 []) 3) crowd = Some s
       /\ threads (base s) = [Writing; WaitRead; WaitWrite]
       /\ srun s (rounds 5) = Some s
       /\ write_entries s (rounds 5) = 5%nat.
Proof.
  split; [reflexivity |].
  exact (waiters_can_starve 3 96 [] (initial_monitor 3 96 []) 5 eq_refl).
Defined.

End RwLog.
